(** * Rencpp extension functions: the binding layer of [extension.hpp]

    A shallow embedding of [ren::internal::FunctionGenerator], of the
    trampoline generated by [REN_STD_FUNCTION] and of the registration
    protocol that ties them together, followed by the properties the
    specification states about them.

    The C++ code works on process-wide mutable state (the capture slots,
    one dispatch table per template instantiation, the function-local
    statics of every expansion of the macro) and on memory owned by the
    foreign runtime (the data stack).  All of it is gathered in one record,
    [World], and every C++ function becomes a function from a world to an
    [Outcome]: a normal return, a C++ exception on its way up, or a trap
    (undefined behaviour, a failed [assert], a self-deadlock), after which
    the process has no continuation. *)

From Stdlib Require Import ZArith Lia.
From stdpp Require Import base decidable option list functions strings.

Local Open Scope Z_scope.

(** ** Machine integers

    [RenShimId] is [int]; [std::vector::size] is a [size_t].  The two
    conversions the code performs implicitly are written out (LP64). *)

Definition to_int (z : Z) : Z := (z + 2 ^ 31) mod 2 ^ 32 - 2 ^ 31.

Definition to_size_t (z : Z) : Z := z mod 2 ^ 64.

Definition RenShimId : Type := Z.

Definition RenResult : Type := Z.

(** What ends the process instead of returning or throwing. *)
Inductive Trap :=
| Deadlock           (* [std::mutex::lock] by the thread that owns it *)
| AssertionFailed    (* [assert] in the constructor *)
| NullStack          (* a read or write through [stack == nullptr] *)
| TableOutOfRange    (* [table[id]] past the end of the vector *)
| NullBouncer        (* a call through [bouncer == nullptr] *)
| ArgumentNotEvaluated. (* see [evaluate_arguments] *)

(** ** What the other headers provide

    [values.hpp], [engine.hpp] and [runtime.hpp] are collaborators of this
    layer and are not part of it; their types and operations are gathered
    in one interface. *)
Class Hooks := {
  (** The value classes a callable can take or return ([Integer],
      [String], [Block], ...), told apart at compile time. *)
  Datatype : Type;
  Datatype_eq_dec :: EqDecision Datatype;
  RenCell : Type;
  RenEngineHandle : Type;
  Value : Type;
  Block : Type;
  Function : Type;
  (** [Value::cell], the raw representation of a value. *)
  cell : Value → RenCell;
  (** The state of the foreign runtime, and what its operations and the
      authors' callables throw. *)
  Runtime : Type;
  Error : Type;
  (** [Value::construct<T>(engine, cell)]: may throw, may act on the
      runtime. *)
  construct :
    Datatype → RenEngineHandle → RenCell → Runtime → (Error + Value) * Runtime;
  (** [Function::finishInit(engine, spec, shim)]: the runtime-specific
      encoding of the new function into its cell.  The shim's address is
      only stored there; the model does not pass it on. *)
  finishInit : RenEngineHandle → Block → Runtime → (Error + Function) * Runtime;
  (** The two status codes of the calling convention. *)
  REN_SUCCESS : RenResult;
  REN_SHIM_INITIALIZED : RenResult;
  (** C++ leaves the order in which the arguments of a call are evaluated
      to the compiler.  [argument_order k] lists the positions of a call
      with [k] arguments in the order the compiler evaluates them; for a
      conforming compiler it is a permutation of [0 .. k-1]. *)
  argument_order : nat → list nat
}.

Section Extension.

Context `{Hooks}.

(** ** Data model *)

(** The template arguments [<R, Ts...>] of [FunctionGenerator]. *)
Record Signature := {
  result_type : Datatype;
  argument_types : list Datatype
}.

#[export] Instance Signature_eq_dec : EqDecision Signature.
Proof. solve_decision. Defined.

Inductive exception :=
| runtime_error (what : string)
| bad_function_call
| thrown (e : Error).

(** [std::function<R(Ts...)>]: empty ([None], as in the constructor's
    default argument [FunType {nullptr}]) or a callable.  A callable
    receives the constructed values in positional order; it may throw
    and may act on the runtime. *)
Definition Callable : Type := list Value → Runtime → (Error + Value) * Runtime.

Definition FunType : Type := option Callable.

Record TableEntry := {
  engine : RenEngineHandle;
  fn : FunType
}.

(** [RenShimBouncer]: the only functions of that type this layer ever
    takes the address of are the [bounceShim] members, one per
    signature. *)
Inductive RenShimBouncer :=
| bounceShim_of (sig : Signature).

(** Modelled from the spec: the stack layout macros [REN_STACK_ARGUMENT]
    and [REN_STACK_RETURN] come from the runtime's headers.  "Arguments
    are read from the stack by fixed positional offset; the return value
    is written to one fixed, runtime-defined offset in the same stack
    structure." *)
Record Stack := {
  REN_STACK_RETURN : RenCell;
  REN_STACK_ARGUMENT : nat → RenCell
}.

Definition write_return (c : RenCell) (s : Stack) : Stack :=
  {| REN_STACK_RETURN := c; REN_STACK_ARGUMENT := REN_STACK_ARGUMENT s |}.

(** The two function-local statics of one expansion of
    [REN_STD_FUNCTION]. *)
Record ShimStatics := {
  static_id : RenShimId;
  static_bouncer : option RenShimBouncer
}.

Definition unidentified : ShimStatics :=
  {| static_id := -1; static_bouncer := None |}.

Record World := {
  extensionTablesMutex : bool;               (* [true]: held *)
  shimIdToCapture : RenShimId;
  shimBouncerToCapture : option RenShimBouncer;
  table : Signature → list TableEntry;       (* one vector per instantiation *)
  statics : nat → ShimStatics;               (* one pair per macro expansion *)
  stacks : nat → Stack;                      (* runtime memory, by address *)
  runtime : Runtime
}.

Definition set_mutex (b : bool) (w : World) : World :=
  {| extensionTablesMutex := b;
     shimIdToCapture := shimIdToCapture w;
     shimBouncerToCapture := shimBouncerToCapture w;
     table := table w; statics := statics w;
     stacks := stacks w; runtime := runtime w |}.

Definition set_capture (i : RenShimId) (b : option RenShimBouncer)
    (w : World) : World :=
  {| extensionTablesMutex := extensionTablesMutex w;
     shimIdToCapture := i;
     shimBouncerToCapture := b;
     table := table w; statics := statics w;
     stacks := stacks w; runtime := runtime w |}.

Definition set_table (t : Signature → list TableEntry) (w : World) : World :=
  {| extensionTablesMutex := extensionTablesMutex w;
     shimIdToCapture := shimIdToCapture w;
     shimBouncerToCapture := shimBouncerToCapture w;
     table := t; statics := statics w;
     stacks := stacks w; runtime := runtime w |}.

Definition set_statics (s : nat → ShimStatics) (w : World) : World :=
  {| extensionTablesMutex := extensionTablesMutex w;
     shimIdToCapture := shimIdToCapture w;
     shimBouncerToCapture := shimBouncerToCapture w;
     table := table w; statics := s;
     stacks := stacks w; runtime := runtime w |}.

Definition set_stacks (s : nat → Stack) (w : World) : World :=
  {| extensionTablesMutex := extensionTablesMutex w;
     shimIdToCapture := shimIdToCapture w;
     shimBouncerToCapture := shimBouncerToCapture w;
     table := table w; statics := statics w;
     stacks := s; runtime := runtime w |}.

Definition set_runtime (r : Runtime) (w : World) : World :=
  {| extensionTablesMutex := extensionTablesMutex w;
     shimIdToCapture := shimIdToCapture w;
     shimBouncerToCapture := shimBouncerToCapture w;
     table := table w; statics := statics w;
     stacks := stacks w; runtime := r |}.

(** ** Outcomes and the monad of the embedding *)

Inductive Outcome (A : Type) :=
| Returned (a : A) (w : World)
| Threw (e : exception) (w : World)
| Stuck (t : Trap).

Arguments Returned {A} a w.
Arguments Threw {A} e w.
Arguments Stuck {A} t.

Definition M (A : Type) : Type := World → Outcome A.

Definition ret {A} (a : A) : M A := fun w => Returned a w.

Definition bind {A B} (c : M A) (k : A → M B) : M B :=
  fun w =>
    match c w with
    | Returned a w' => k a w'
    | Threw e w' => Threw e w'
    | Stuck t => Stuck t
    end.

Definition throw {A} (e : exception) : M A := fun w => Threw e w.

Definition trap {A} (t : Trap) : M A := fun _ => Stuck t.

Definition gets {A} (f : World → A) : M A := fun w => Returned (f w) w.

Definition modify (f : World → World) : M unit := fun w => Returned tt (f w).

Notation "'do' x <- c ; k" := (bind c (fun x => k))
  (at level 10, x name, c at level 100, k at level 200).

(** A call into the runtime or into a callable: acts on [runtime] only;
    an error becomes a propagating exception. *)
Definition foreign {A} (f : Runtime → (Error + A) * Runtime) : M A :=
  fun w =>
    match f (runtime w) with
    | (inr a, rt) => Returned a (set_runtime rt w)
    | (inl e, rt) => Threw (thrown e) (set_runtime rt w)
    end.

(** [std::mutex::lock] and [unlock], for the one thread of the model. *)
Definition lock : M unit :=
  fun w =>
    if extensionTablesMutex w then Stuck Deadlock
    else Returned tt (set_mutex true w).

Definition unlock : M unit := modify (set_mutex false).

(** [std::lock_guard]: the mutex is released when the scope is left,
    by return or by exception. *)
Definition lock_guard {A} (body : M A) : M A :=
  fun w =>
    match lock w with
    | Returned _ w1 =>
        match body w1 with
        | Returned a w2 => Returned a (set_mutex false w2)
        | Threw e w2 => Threw e (set_mutex false w2)
        | Stuck t => Stuck t
        end
    | Threw e w1 => Threw e w1
    | Stuck t => Stuck t
    end.

Definition assert (b : bool) : M unit :=
  if b then ret tt else trap AssertionFailed.

(** ** The invoker: [applyFunImpl], [applyFun], [bounceShim] *)

(** [RenCell * stack]: [None] is [nullptr], [Some a] the address of a
    frame of the runtime's stack. *)
Definition StackPointer : Type := option nat.

(** One argument expression of the pack expansion,
    [Value::construct<T>(engine, *REN_STACK_ARGUMENT(stack, i))]. *)
Definition construct_argument (engine : RenEngineHandle)
    (stack : StackPointer) (i : nat) (T : Datatype) : M Value :=
  match stack with
  | None => trap NullStack
  | Some a =>
      fun w => foreign (construct T engine (REN_STACK_ARGUMENT (stacks w a) i)) w
  end.

(** The expansion over [Indices...]: one expression per index, at the
    type [type_at<i, Ts...>]. *)
Definition argument_expressions (engine : RenEngineHandle)
    (stack : StackPointer) (Ts : list Datatype) (Indices : list nat)
    : list (M Value) :=
  omap (fun i => construct_argument engine stack i <$> Ts !! i) Indices.

(** The arguments of a C++ call: every expression is evaluated, in the
    compiler's order, before the call; the values are then passed in
    positional order. *)
Fixpoint evaluate_in_order {A} (order : list nat) (exprs : list (M A))
    (slots : list (option A)) : M (list (option A)) :=
  match order with
  | [] => ret slots
  | i :: rest =>
      match exprs !! i with
      | Some e =>
          do v <- e;
          evaluate_in_order rest exprs (<[i := Some v]> slots)
      | None => evaluate_in_order rest exprs slots
      end
  end.

(** An order that skips a position describes no C++ evaluation; the
    model traps there. *)
Definition evaluate_arguments {A} (exprs : list (M A)) : M (list A) :=
  do slots <- evaluate_in_order (argument_order (length exprs)) exprs
                (replicate (length exprs) None);
  match mapM (fun s : option A => s) slots with
  | Some vs => ret vs
  | None => trap ArgumentNotEvaluated
  end.

(** [std::function::operator()]. *)
Definition call (fun_ : FunType) (vs : list Value) : M Value :=
  match fun_ with
  | None => throw bad_function_call
  | Some f => foreign (f vs)
  end.

Definition applyFunImpl (fun_ : FunType) (engine : RenEngineHandle)
    (stack : StackPointer) (Ts : list Datatype) (Indices : list nat)
    : M Value :=
  do vs <- evaluate_arguments (argument_expressions engine stack Ts Indices);
  call fun_ vs.

(** [make_indices<sizeof...(Ts)>] is [indices<0, ..., k-1>]. *)
Definition applyFun (fun_ : FunType) (engine : RenEngineHandle)
    (stack : StackPointer) (Ts : list Datatype) : M Value :=
  applyFunImpl fun_ engine stack Ts (seq 0 (length Ts)).

(** [table[id]]: the [int] becomes a [size_t]; [operator[]] does not
    check bounds. *)
Definition table_at (w : World) (sig : Signature) (id : RenShimId)
    : option TableEntry :=
  table w sig !! Z.to_nat (to_size_t id).

Definition copy_entry (sig : Signature) (id : RenShimId) : M TableEntry :=
  fun w =>
    match table_at w sig id with
    | Some entry => Returned entry w
    | None => Stuck TableOutOfRange
    end.

(** [*REN_STACK_RETURN(stack) = c]. *)
Definition assign_return (stack : StackPointer) (c : RenCell) : M unit :=
  match stack with
  | None => trap NullStack
  | Some a =>
      modify (fun w => set_stacks (<[a := write_return c (stacks w a)]> (stacks w)) w)
  end.

Definition bounceShim (sig : Signature) (id : RenShimId)
    (stack : StackPointer) : M RenResult :=
  do _ <- lock;
  do entry <- copy_entry sig id;
  do _ <- unlock;
  do result <- applyFun (fn entry) (engine entry) stack (argument_types sig);
  do _ <- assign_return stack (cell result);
  ret REN_SUCCESS.

(** A call through a [RenShimBouncer]. *)
Definition call_bouncer (bouncer : option RenShimBouncer) (id : RenShimId)
    (stack : StackPointer) : M RenResult :=
  match bouncer with
  | None => trap NullBouncer
  | Some (bounceShim_of sig) => bounceShim sig id stack
  end.

(** ** The trampoline: [REN_STD_FUNCTION] *)

(** [RenShimPointer]: a pointer to a function that takes the
    [RenCell * stack] and returns an [int]. *)
Definition RenShimPointer : Type := StackPointer → M RenResult.

Definition capture_identity (site : nat) (w : World) : World :=
  set_statics
    (<[site := {| static_id := shimIdToCapture w;
                  static_bouncer := shimBouncerToCapture w |}]> (statics w))
    w.

(** The lambda of the expansion of the macro at [site]. *)
Definition REN_STD_FUNCTION (site : nat) : RenShimPointer :=
  fun stack =>
    do s <- gets (fun w => statics w site);
    if decide (static_id s ≠ -1) then
      call_bouncer (static_bouncer s) (static_id s) stack
    else
      do _ <- modify (capture_identity site);
      ret REN_SHIM_INITIALIZED.

(** ** Registration: the constructor of [FunctionGenerator] *)

Definition push_back (sig : Signature) (entry : TableEntry) (w : World)
    : World :=
  set_table (<[sig := table w sig ++ [entry]]> (table w)) w.

Definition FunctionGenerator (sig : Signature) (engine : RenEngineHandle)
    (spec : Block) (shim : RenShimPointer) (fun_ : FunType) : M Function :=
  lock_guard (
    do id <- gets shimIdToCapture;
    do _ <- assert (bool_decide (id = -1));
    do bouncer <- gets shimBouncerToCapture;
    do _ <- assert (bool_decide (bouncer = None));
    do _ <- modify (fun w =>
              set_capture (to_int (Z.of_nat (length (table w sig))))
                (Some (bounceShim_of sig)) w);
    do r <- shim None;
    if decide (r ≠ REN_SHIM_INITIALIZED) then
      throw (runtime_error "First shim call didn't return REN_SHIM_INITIALIZED")
    else
      do _ <- modify (set_capture (-1) None);
      do _ <- modify (push_back sig {| engine := engine; fn := fun_ |});
      foreign (finishInit engine spec)).

(** A lambda together with what [utility::function_traits] reads off
    its type. *)
Record Lambda := {
  lambda_result : Datatype;
  lambda_args : list Datatype;
  lambda_call : Callable
}.

Definition makeFunction_ (engine : RenEngineHandle) (spec : Block)
    (shim : RenShimPointer) (fun_ : Lambda) : M Function :=
  FunctionGenerator
    {| result_type := lambda_result fun_; argument_types := lambda_args fun_ |}
    engine spec shim (Some (lambda_call fun_)).

(** ** A process using the layer

    What a program built on this header does, one step at a time:
    register a callable with a trampoline of its own, let the runtime
    invoke a trampoline, or let the runtime work on its own memory. *)
Inductive Action :=
| Register (sig : Signature) (engine : RenEngineHandle) (spec : Block)
    (site : nat) (fun_ : FunType)
| Invoke (site : nat) (stack : StackPointer)
| RuntimeStep (s : nat → Stack) (r : Runtime).

Definition perform (a : Action) : M unit :=
  match a with
  | Register sig engine spec site fun_ =>
      do _ <- FunctionGenerator sig engine spec (REN_STD_FUNCTION site) fun_;
      ret tt
  | Invoke site stack =>
      do _ <- REN_STD_FUNCTION site stack;
      ret tt
  | RuntimeStep s r => modify (fun w => set_runtime r (set_stacks s w))
  end.

(** An exception that reaches the runtime is reported there and the
    process goes on; a trap ends it. *)
Definition after {A} (o : Outcome A) : option World :=
  match o with
  | Returned _ w => Some w
  | Threw _ w => Some w
  | Stuck _ => None
  end.

Fixpoint run (actions : list Action) (w : World) : option World :=
  match actions with
  | [] => Some w
  | a :: rest =>
      match after (perform a w) with
      | Some w' => run rest w'
      | None => None
      end
  end.

(** ** Vocabulary of the specification *)

(** The specification's reading of the argument list: "for each argument
    position 0..k-1, in strictly left-to-right order, construct a value". *)
Fixpoint left_to_right {A} (exprs : list (M A)) : M (list A) :=
  match exprs with
  | [] => ret []
  | e :: rest =>
      do v <- e;
      do vs <- left_to_right rest;
      ret (v :: vs)
  end.

(** ... "apply the callable to the full ordered tuple of constructed
    values". *)
Definition applyFun_left_to_right (fun_ : FunType) (engine : RenEngineHandle)
    (stack : StackPointer) (Ts : list Datatype) : M Value :=
  do vs <- left_to_right
             (argument_expressions engine stack Ts (seq 0 (length Ts)));
  call fun_ vs.

(** [w'] differs from [w] in the state of the runtime at most. *)
Definition runtime_only (w w' : World) : Prop :=
  w' = set_runtime (runtime w') w.

(** A computation that acts on the runtime only. *)
Definition confined {A} (c : M A) : Prop :=
  ∀ w, match c w with
       | Returned _ w' | Threw _ w' => runtime_only w w'
       | Stuck _ => True
       end.

(** The Registration Capture Slots are empty. *)
Definition capture_empty (w : World) : Prop :=
  shimIdToCapture w = -1 ∧ shimBouncerToCapture w = None.

(** The size of a table is a value of [int]. *)
Definition fits_int (w : World) (sig : Signature) : Prop :=
  Z.of_nat (length (table w sig)) < 2 ^ 31.

(** The tables are private to [FunctionGenerator]: a shim can reach them
    through [bounceShim] only, which reads them. *)
Definition leaves_tables (shim : RenShimPointer) : Prop :=
  ∀ stack w r w', shim stack w = Returned r w' → table w' = table w.

(** What holds of a process between any two of its actions: the capture
    slots are empty, and a trampoline that holds an identity holds the
    dispatcher of a signature and the id issued for an entry that is in
    that signature's table. *)
Definition well_formed (w : World) : Prop :=
  capture_empty w ∧
  ∀ site, static_id (statics w site) ≠ -1 →
    ∃ sig (n : nat),
      statics w site
      = {| static_id := to_int (Z.of_nat n);
           static_bouncer := Some (bounceShim_of sig) |}
      ∧ (n < length (table w sig))%nat.

(** The process a registration with the trampoline of [site] leaves
    behind once [finishInit] has been called and has left the runtime in
    [rt]. *)
Definition registered (sig : Signature) (engine : RenEngineHandle)
    (site : nat) (fun_ : FunType) (rt : Runtime) (w : World) : World :=
  {| extensionTablesMutex := false;
     shimIdToCapture := -1;
     shimBouncerToCapture := None;
     table := <[sig := table w sig ++ [{| engine := engine; fn := fun_ |}]]>
                (table w);
     statics :=
       <[site := {| static_id := to_int (Z.of_nat (length (table w sig)));
                    static_bouncer := Some (bounceShim_of sig) |}]>
         (statics w);
     stacks := stacks w;
     runtime := rt |}.

(** The trampoline of [site] forwards to the dispatcher of [sig]. *)
Definition dispatches_to (w : World) (site : nat) (sig : Signature) : Prop :=
  static_id (statics w site) ≠ -1 ∧
  static_bouncer (statics w site) = Some (bounceShim_of sig).



(** The compiler evaluates every argument of a call of [k] arguments. *)
Definition evaluates_all (k : nat) : Prop :=
  ∀ i, (i < k)%nat → i ∈ argument_order k.

(** The process before anything is registered. *)
Definition initial (s : nat → Stack) (r : Runtime) : World :=
  {| extensionTablesMutex := false;
     shimIdToCapture := -1;
     shimBouncerToCapture := None;
     table := fun _ => [];
     statics := fun _ => unidentified;
     stacks := s;
     runtime := r |}.

End Extension.

Arguments Returned {H A} a w.
Arguments Threw {H A} e w.
Arguments Stuck {H A} t.

(** ** A test harness

    A small runtime to run the model on: cells are integers, strings or
    none; a value is its cell; [construct] checks the cell against the
    requested class and logs the cell it was asked to convert, so that
    the order of the conversions can be read off the runtime's state. *)
Module Harness.

Inductive datatype := TInteger | TString.

#[export] Instance datatype_eq_dec : EqDecision datatype.
Proof. solve_decision. Defined.

Inductive hcell :=
| CNone
| CInteger (z : Z)
| CString (s : string).

Inductive herror :=
| TypeMismatch (expected : datatype) (found : hcell)
| WrongArity.

Definition hconstruct (T : datatype) (engine : nat) (c : hcell)
    (log : list hcell) : (herror + hcell) * list hcell :=
  match T, c with
  | TInteger, CInteger _ => (inr c, log ++ [c])
  | TString, CString _ => (inr c, log ++ [c])
  | _, _ => (inl (TypeMismatch T c), log ++ [c])
  end.

(** The harness, for a compiler that evaluates call arguments in
    [order]. *)
Definition hooks (order : nat → list nat) : Hooks :=
  {| Datatype := datatype;
     RenCell := hcell;
     RenEngineHandle := nat;
     Value := hcell;
     Block := string;
     Function := string;
     cell := fun v => v;
     Runtime := list hcell;
     Error := herror;
     construct := hconstruct;
     finishInit := fun _ spec log => (inr spec, log);
     REN_SUCCESS := 0;
     REN_SHIM_INITIALIZED := 5;
     argument_order := order |}.

(** Arguments evaluated first to last, and last to first. *)
Definition first_to_last (k : nat) : list nat := seq 0 k.

Definition last_to_first (k : nat) : list nat := rev (seq 0 k).

Section Scenario.

Variable order : nat → list nat.

#[local] Instance scenario_hooks : Hooks := hooks order.

(** [[](Integer a, Integer b) -> Integer { return a + b; }] *)
Definition adder : Lambda :=
  {| lambda_result := TInteger;
     lambda_args := [TInteger; TInteger];
     lambda_call := fun vs log =>
       match vs with
       | [CInteger a; CInteger b] => (inr (CInteger (a + b)), log)
       | _ => (inl WrongArity, log)
       end |}.

(** [[](Integer a, Integer b) -> Integer { return a * b; }] *)
Definition multiplier : Lambda :=
  {| lambda_result := TInteger;
     lambda_args := [TInteger; TInteger];
     lambda_call := fun vs log =>
       match vs with
       | [CInteger a; CInteger b] => (inr (CInteger (a * b)), log)
       | _ => (inl WrongArity, log)
       end |}.

(** The signature of both. *)
Definition binary : Signature :=
  {| result_type := TInteger; argument_types := [TInteger; TInteger] |}.

Definition frame (args : list hcell) : Stack :=
  {| REN_STACK_RETURN := CNone;
     REN_STACK_ARGUMENT := fun i => nth i args CNone |}.

(** Nothing registered; the frame at address 0 holds the arguments
    (2, 3), every other frame two strings. *)
Definition fresh : World :=
  initial
    (fun a => match a with
              | O => frame [CInteger 2; CInteger 3]
              | _ => frame [CString "a"; CString "b"]
              end)
    [].

Definition world_after {A} (o : Outcome A) (default : World) : World :=
  match after o with
  | Some w => w
  | None => default
  end.

(** The text of the parameter specification. *)
Definition spec : string := "a [integer!] b [integer!]".

(** [makeFunction("a [integer!] b [integer!]", REN_STD_FUNCTION, fun_)],
    with the expansion of the macro at [site]. *)
Definition register (site : nat) (fun_ : Lambda) : M Function :=
  makeFunction_ 0%nat spec (REN_STD_FUNCTION site) fun_.

(** The process once [adder] is registered with the trampoline of site
    0, ... *)
Definition with_adder : World := world_after (register 0 adder fresh) fresh.

(** ... once it has been called on the frame at address 0, ... *)
Definition adder_called : World :=
  default with_adder (run [Invoke 0 (Some 0%nat)] with_adder).

(** ... once [multiplier] is registered with the trampoline of site 1,
    ... *)
Definition with_both : World :=
  world_after (register 1 multiplier adder_called) adder_called.

(** ... and once both have been called. *)
Definition both_called : World :=
  default with_both
    (run [Invoke 1 (Some 0%nat); Invoke 0 (Some 0%nat)] with_both).

(** A hand-written native that ignores the identify protocol:
    [[](RenCell * stack) -> int { return REN_SUCCESS; }]. *)
Definition stubborn_shim : RenShimPointer := fun _ => ret REN_SUCCESS.

End Scenario.

(** The harness for a compiler that evaluates arguments first to last,
    and for one that evaluates them last to first. *)
Definition first_to_last_compiler : Hooks := hooks first_to_last.

Definition last_to_first_compiler : Hooks := hooks last_to_first.

(** The process with a third registration, of an empty [std::function]
    (the constructor's default argument), with the trampoline of site
    2. *)
Definition with_empty : World :=
  world_after first_to_last
    (FunctionGenerator (H := first_to_last_compiler) (binary first_to_last)
       0%nat spec (REN_STD_FUNCTION 2) None (both_called first_to_last))
    (both_called first_to_last).

(** A runtime whose [finishInit] rejects every specification. *)
Definition refusing_runtime : Hooks :=
  {| Datatype := datatype;
     RenCell := hcell;
     RenEngineHandle := nat;
     Value := hcell;
     Block := string;
     Function := string;
     cell := fun v => v;
     Runtime := list hcell;
     Error := herror + string;
     construct := fun T engine c log =>
       match hconstruct T engine c log with
       | (inr v, log') => (inr v, log')
       | (inl e, log') => (inl (inl e), log')
       end;
     finishInit := fun _ spec log => (inl (inr spec), log);
     REN_SUCCESS := 0;
     REN_SHIM_INITIALIZED := 5;
     argument_order := first_to_last |}.

(** Nothing registered, on that runtime. *)
Definition fresh_refusing : World (H := refusing_runtime) :=
  initial (H := refusing_runtime)
    (fun _ => @Build_Stack refusing_runtime CNone (fun _ => CNone)) [].

End Harness.

(** * Properties *)

Section Properties.

Context `{Hooks}.

Implicit Types (w : World) (sig : Signature) (id : RenShimId).
Implicit Types (stack : StackPointer) (site : nat).

(** ** Records and frames *)

Lemma set_mutex_id w : set_mutex (extensionTablesMutex w) w = w.
Proof. by destruct w. Qed.

Lemma set_runtime_id w : set_runtime (runtime w) w = w.
Proof. by destruct w. Qed.

Lemma runtime_only_refl w : runtime_only w w.
Proof. unfold runtime_only. by rewrite set_runtime_id. Qed.

Lemma runtime_only_trans w1 w2 w3 :
  runtime_only w1 w2 → runtime_only w2 w3 → runtime_only w1 w3.
Proof. unfold runtime_only. intros -> ->. reflexivity. Qed.

Lemma runtime_only_set w rt : runtime_only w (set_runtime rt w).
Proof. reflexivity. Qed.

Lemma runtime_only_stacks w w' : runtime_only w w' → stacks w' = stacks w.
Proof. by intros ->. Qed.

Lemma confined_ret {A} (a : A) : confined (ret a).
Proof. intros w. apply runtime_only_refl. Qed.

Lemma confined_bind {A B} (c : M A) (k : A → M B) :
  confined c → (∀ a, confined (k a)) → confined (bind c k).
Proof.
  intros Hc Hk w. unfold bind. specialize (Hc w).
  destruct (c w) as [a w1|e w1|t]; [|done..].
  specialize (Hk a w1).
  destruct (k a w1); eauto using runtime_only_trans.
Qed.

Lemma confined_foreign {A} (f : Runtime → (Error + A) * Runtime) :
  confined (foreign f).
Proof.
  intros w. unfold foreign.
  destruct (f (runtime w)) as [[e|a] rt]; apply runtime_only_set.
Qed.

Lemma confined_construct_argument engine stack i T :
  confined (construct_argument engine stack i T).
Proof.
  destruct stack as [a|]; [|done].
  intros w. simpl. apply confined_foreign.
Qed.

Lemma confined_call fun_ vs : confined (call fun_ vs).
Proof.
  destruct fun_ as [f|]; simpl.
  - apply confined_foreign.
  - intros w. apply runtime_only_refl.
Qed.

(** ** Evaluation of the argument list *)

Lemma argument_expressions_imap engine stack Ts :
  argument_expressions engine stack Ts (seq 0 (length Ts))
  = imap (construct_argument engine stack) Ts.
Proof.
  unfold argument_expressions.
  enough (∀ pre,
    omap (fun i => construct_argument engine stack i <$> (pre ++ Ts) !! i)
      (seq (length pre) (length Ts))
    = imap (fun i => construct_argument engine stack (length pre + i)) Ts) as G
    by apply (G []).
  induction Ts as [|T Ts IH]; intros pre; [done|].
  cbn [length seq omap list_omap imap].
  rewrite list_lookup_middle by done. cbn [fmap option_fmap option_map].
  rewrite Nat.add_0_r. f_equal.
  specialize (IH (pre ++ [T])).
  rewrite length_app, <- app_assoc, Nat.add_1_r in IH.
  cbn [app length] in IH. etransitivity; [exact IH|].
  apply imap_ext. intros i x _. cbn. f_equal. lia.
Qed.

Lemma argument_expressions_confined engine stack Ts Indices :
  Forall confined (argument_expressions engine stack Ts Indices).
Proof.
  apply Forall_forall. intros e He.
  apply list_elem_of_omap in He as (i & _ & Hi).
  destruct (Ts !! i) as [T|]; simplify_eq/=.
  apply confined_construct_argument.
Qed.

Lemma confined_evaluate_in_order {A} order (exprs : list (M A)) slots :
  Forall confined exprs → confined (evaluate_in_order order exprs slots).
Proof.
  intros Hex. revert slots.
  induction order as [|i order IH]; intros slots; simpl.
  - apply confined_ret.
  - destruct (exprs !! i) as [e|] eqn:He; [|apply IH].
    apply confined_bind; [|intros v; apply IH].
    eapply Forall_lookup_1; eauto.
Qed.

Lemma confined_evaluate_arguments {A} (exprs : list (M A)) :
  Forall confined exprs → confined (evaluate_arguments exprs).
Proof.
  intros Hex. unfold evaluate_arguments.
  apply confined_bind; [by apply confined_evaluate_in_order|].
  intros slots. destruct (mapM _ slots); [apply confined_ret|done].
Qed.

Lemma confined_applyFun fun_ engine stack Ts :
  confined (applyFun fun_ engine stack Ts).
Proof.
  unfold applyFun, applyFunImpl. apply confined_bind.
  - apply confined_evaluate_arguments, argument_expressions_confined.
  - intros vs. apply confined_call.
Qed.

(** Whatever the order, a slot that is filled holds the value of the
    expression at its own position, evaluated in a world that differs
    from the first one in the runtime's state only. *)
Lemma evaluate_in_order_slots {A} w0 order (exprs : list (M A)) :
  Forall confined exprs →
  ∀ slots w slots' w',
    runtime_only w0 w →
    evaluate_in_order order exprs slots w = Returned slots' w' →
    (∀ i v, slots !! i = Some (Some v) →
       ∃ e w1 w2, exprs !! i = Some e ∧ runtime_only w0 w1 ∧ e w1 = Returned v w2) →
    length slots' = length slots ∧
    ∀ i v, slots' !! i = Some (Some v) →
       ∃ e w1 w2, exprs !! i = Some e ∧ runtime_only w0 w1 ∧ e w1 = Returned v w2.
Proof.
  intros Hex.
  induction order as [|j order IH]; intros slots w slots' w' Hw Hrun Hinv;
    simpl in Hrun.
  - unfold ret in Hrun. by simplify_eq.
  - destruct (exprs !! j) as [e|] eqn:He; [|by eapply IH].
    unfold bind in Hrun.
    destruct (e w) as [v w1|x w1|t] eqn:Hev; [|done..].
    assert (runtime_only w w1) as Hw1.
    { pose proof (Forall_lookup_1 _ _ _ _ Hex He w) as Hc. by rewrite Hev in Hc. }
    apply IH in Hrun as [Hlen Hslots]; [|by eapply runtime_only_trans|].
    + by rewrite length_insert in Hlen.
    + intros i u Hi.
      apply list_lookup_insert_Some in Hi as [(-> & Hu & _)|(Hne & Hi)].
      * simplify_eq. eauto 6.
      * eauto.
Qed.

Lemma evaluate_arguments_positional {A} (exprs : list (M A)) w vs w' :
  Forall confined exprs →
  evaluate_arguments exprs w = Returned vs w' →
  length vs = length exprs ∧
  ∀ i, (i < length exprs)%nat →
    ∃ v e w1 w2, vs !! i = Some v ∧ exprs !! i = Some e ∧
                 runtime_only w w1 ∧ e w1 = Returned v w2.
Proof.
  intros Hex Hrun. unfold evaluate_arguments, bind in Hrun.
  destruct (evaluate_in_order _ _ _ w) as [slots w1|x w1|t] eqn:Hev; [|done..].
  destruct (mapM _ slots) as [vs'|] eqn:Hseq; [|done].
  unfold ret in Hrun. simplify_eq.
  apply (evaluate_in_order_slots w) in Hev as [Hlen Hslots];
    [|done|apply runtime_only_refl|].
  2:{ intros i v Hi. apply lookup_replicate in Hi as [? _]. done. }
  rewrite length_replicate in Hlen.
  apply mapM_Some_1 in Hseq.
  pose proof (Forall2_length _ _ _ Hseq) as Hlen'.
  split; [lia|]. intros i Hi.
  destruct (lookup_lt_is_Some_2 vs i) as [v Hv]; [lia|].
  destruct (Forall2_lookup_r _ _ _ _ _ Hseq Hv) as (s & Hs & ->).
  destruct (Hslots _ _ Hs) as (e & w1' & w2 & ? & ? & ?).
  eauto 10.
Qed.

(** On the values the callable receives: there are as many as the
    signature has argument types, and the one at position [i] was
    constructed at the type of position [i], with [engine], from the
    cell at position [i] of the frame. *)
Lemma constructed_from_slots engine a Ts w vs w' :
  evaluate_arguments
    (argument_expressions engine (Some a) Ts (seq 0 (length Ts))) w
  = Returned vs w' →
  length vs = length Ts ∧
  ∀ i T, Ts !! i = Some T →
    ∃ v rt rt', vs !! i = Some v ∧
      construct T engine (REN_STACK_ARGUMENT (stacks w a) i) rt = (inr v, rt').
Proof.
  intros Hrun.
  apply evaluate_arguments_positional in Hrun as [Hlen Hpos];
    [|apply argument_expressions_confined].
  rewrite argument_expressions_imap in Hlen, Hpos.
  rewrite length_imap in Hlen, Hpos.
  split; [done|]. intros i T HT.
  destruct (Hpos i) as (v & e & w1 & w2 & Hv & He & Hw1 & Hev).
  { by eapply lookup_lt_Some. }
  rewrite list_lookup_imap, HT in He. simplify_eq/=.
  unfold foreign in Hev.
  rewrite (runtime_only_stacks _ _ Hw1) in Hev.
  destruct (construct _ _ _ _) as [[x|v'] rt'] eqn:Hc; simplify_eq.
  eauto.
Qed.

(** An expression that throws wherever it is evaluated makes the
    evaluation of the list throw, if the order visits it at all and no
    expression traps. *)
Lemma evaluate_in_order_throws {A} w0 order (exprs : list (M A)) i (e : M A) :
  Forall confined exprs →
  i ∈ order →
  exprs !! i = Some e →
  (∀ w, runtime_only w0 w → ∃ x w', e w = Threw x w') →
  (∀ j (e' : M A) w t, exprs !! j = Some e' → e' w ≠ Stuck t) →
  ∀ slots w, runtime_only w0 w →
    ∃ x w', evaluate_in_order order exprs slots w = Threw x w'.
Proof.
  intros Hex Hin He Hthrow Hsafe.
  induction order as [|j order IH]; intros slots w Hw.
  - by apply elem_of_nil in Hin.
  - simpl. destruct (decide (j = i)) as [Heq|Hne].
    + rewrite Heq, He. unfold bind. destruct (Hthrow w Hw) as (x & w' & ->). eauto.
    + apply elem_of_cons in Hin as [?|Hin]; [congruence|].
      destruct (exprs !! j) as [e'|] eqn:He'; [|by apply IH].
      unfold bind.
      pose proof (Forall_lookup_1 _ _ _ _ Hex He' w) as Hc.
      destruct (e' w) as [v w1|x w1|t] eqn:Hev.
      * apply IH; [done|]. by eapply runtime_only_trans.
      * eauto.
      * by destruct (Hsafe _ _ _ _ He' Hev).
Qed.

(** A compiler that evaluates arguments first to last yields the
    specification's reading. *)
Lemma evaluate_in_order_seq {A} (exprs : list (M A)) :
  ∀ m (acc : list A) w,
    (length acc + m = length exprs)%nat →
    evaluate_in_order (seq (length acc) m) exprs
      ((Some <$> acc) ++ replicate m None) w
    = match left_to_right (drop (length acc) exprs) w with
      | Returned vs w' => Returned (Some <$> (acc ++ vs)) w'
      | Threw e w' => Threw e w'
      | Stuck t => Stuck t
      end.
Proof.
  induction m as [|m IH]; intros acc w Hlen; simpl.
  - rewrite drop_ge by lia. simpl. unfold ret.
    by rewrite !app_nil_r.
  - destruct (lookup_lt_is_Some_2 exprs (length acc)) as [e He]; [lia|].
    rewrite He, (drop_S _ _ _ He). simpl. unfold bind.
    destruct (e w) as [v w1|x w1|t]; [|done..].
    replace (<[length acc:=Some v]> ((Some <$> acc) ++ None :: replicate m None))
      with ((Some <$> (acc ++ [v])) ++ replicate m (@None A)).
    2:{ rewrite insert_app_r_alt by (rewrite length_fmap; lia).
        rewrite length_fmap, Nat.sub_diag, fmap_app, <- app_assoc. done. }
    specialize (IH (acc ++ [v]) w1).
    rewrite length_app in IH. simpl in IH. rewrite Nat.add_1_r in IH.
    rewrite IH by lia. unfold bind, ret.
    destruct (left_to_right _ w1) as [vs w2|x w2|t]; [|done..].
    by rewrite <- app_assoc.
Qed.

Lemma evaluate_arguments_left_to_right {A} (exprs : list (M A)) w :
  argument_order (length exprs) = seq 0 (length exprs) →
  evaluate_arguments exprs w = left_to_right exprs w.
Proof.
  intros Horder. unfold evaluate_arguments. rewrite Horder.
  unfold bind.
  pose proof (evaluate_in_order_seq exprs (length exprs) [] w) as Hseq.
  cbn [length fmap list_fmap app] in Hseq. rewrite drop_0 in Hseq.
  rewrite Hseq by done.
  destruct (left_to_right exprs w) as [vs w'|x w'|t]; [|done..].
  replace (mapM (fun s : option A => s) (Some <$> vs)) with (Some vs); [done|].
  symmetry. apply mapM_Some_2. clear.
  induction vs; constructor; auto.
Qed.

(** ** The dispatcher *)

(** With the mutex free and the id in range, [bounceShim] is the
    application followed by the write of the result. *)
Lemma bounceShim_unfold sig id stack w entry :
  extensionTablesMutex w = false →
  table_at w sig id = Some entry →
  bounceShim sig id stack w
  = bind (applyFun (fn entry) (engine entry) stack (argument_types sig))
      (fun result => bind (assign_return stack (cell result))
                       (fun _ => ret REN_SUCCESS)) w.
Proof.
  intros Hm Hentry. unfold bounceShim, bind at 1, lock. rewrite Hm.
  unfold bind at 1, copy_entry.
  change (table_at (set_mutex true w) sig id) with (table_at w sig id).
  rewrite Hentry. unfold bind at 1, unlock, modify.
  change (set_mutex false (set_mutex true w)) with (set_mutex false w).
  by rewrite <- Hm, set_mutex_id.
Qed.

(** An exception out of [bounceShim] leaves every frame as it was. *)
Lemma bounceShim_threw_stacks sig id stack w e w' :
  bounceShim sig id stack w = Threw e w' → stacks w' = stacks w.
Proof.
  unfold bounceShim, bind at 1, lock.
  destruct (extensionTablesMutex w); [done|].
  unfold bind at 1, copy_entry.
  destruct (table_at _ sig id) as [entry|]; [|done].
  unfold bind at 1, unlock, modify. unfold bind at 1.
  pose proof (confined_applyFun (fn entry) (engine entry) stack
                (argument_types sig) (set_mutex false (set_mutex true w))) as Hc.
  destruct (applyFun _ _ _ _ _) as [r w1|x w1|t]; [| |done].
  - unfold bind, assign_return. destruct stack; done.
  - intros [= <- <-]. by rewrite (runtime_only_stacks _ _ Hc).
Qed.

(** C1: for an id registered in the signature's table, [bounceShim]
    applies the entry's callable to the values constructed from the
    frame's argument slots with the entry's engine handle (one value per
    argument type, the one at position [i] from slot [i]), writes the raw
    cell of the callable's result into the frame's return slot, touches
    nothing else but the runtime's state, and returns [REN_SUCCESS]. *)
Theorem bounceShim_applies_entry sig id a w entry callee vs w1 r rt :
  extensionTablesMutex w = false →
  table_at w sig id = Some entry →
  fn entry = Some callee →
  evaluate_arguments
    (argument_expressions (engine entry) (Some a) (argument_types sig)
       (seq 0 (length (argument_types sig)))) w
  = Returned vs w1 →
  callee vs (runtime w1) = (inr r, rt) →
  bounceShim sig id (Some a) w
  = Returned REN_SUCCESS
      (set_stacks (<[a := write_return (cell r) (stacks w a)]> (stacks w))
         (set_runtime rt w))
  ∧ length vs = length (argument_types sig)
  ∧ ∀ i T, argument_types sig !! i = Some T →
      ∃ v rt0 rt1, vs !! i = Some v ∧
        construct T (engine entry) (REN_STACK_ARGUMENT (stacks w a) i) rt0
        = (inr v, rt1).
Proof.
  intros Hm Hentry Hfn Hargs Hcall.
  split; [|by eapply constructed_from_slots].
  rewrite (bounceShim_unfold _ _ _ _ _ Hm Hentry).
  unfold bind at 1, applyFun, applyFunImpl, bind at 1.
  rewrite Hargs, Hfn. simpl. unfold foreign. rewrite Hcall.
  pose proof (confined_evaluate_arguments _
    (argument_expressions_confined (engine entry) (Some a)
       (argument_types sig) (seq 0 (length (argument_types sig)))) w) as Hc.
  rewrite Hargs in Hc. rewrite Hc. reflexivity.
Qed.

(** C3, as the code has it: the callable is applied only once all [k]
    values exist, the value at position [i] being constructed at the
    argument type of position [i], with the entry's engine, from slot
    [i]; the constructions run in the order in which the compiler
    evaluates the arguments of a call, which is position 0 first and
    position [k-1] last when that order is left to right. *)
Theorem applyFun_constructs_by_position fun_ engine a Ts w :
  (argument_order (length Ts) = seq 0 (length Ts) →
   applyFun fun_ engine (Some a) Ts w
   = applyFun_left_to_right fun_ engine (Some a) Ts w)
  ∧ ∀ r w',
      applyFun fun_ engine (Some a) Ts w = Returned r w' →
      ∃ vs w1,
        evaluate_arguments
          (argument_expressions engine (Some a) Ts (seq 0 (length Ts))) w
        = Returned vs w1
        ∧ length vs = length Ts
        ∧ (∀ i T, Ts !! i = Some T →
             ∃ v rt0 rt1, vs !! i = Some v ∧
               construct T engine (REN_STACK_ARGUMENT (stacks w a) i) rt0
               = (inr v, rt1))
        ∧ call fun_ vs w1 = Returned r w'.
Proof.
  split.
  - intros Horder. unfold applyFun, applyFunImpl, applyFun_left_to_right, bind.
    rewrite evaluate_arguments_left_to_right; [done|].
    by rewrite argument_expressions_imap, length_imap.
  - intros r w' Hrun. unfold applyFun, applyFunImpl, bind in Hrun.
    destruct (evaluate_arguments _ w) as [vs w1|x w1|t] eqn:Hargs; [|done..].
    exists vs, w1. split; [done|].
    destruct (constructed_from_slots _ _ _ _ _ _ Hargs) as [Hlen Hpos].
    done.
Qed.

(** C4: an exception raised while the argument values are constructed
    comes out of [bounceShim] as it is, whatever the callable (which is
    not applied); so does one raised by the callable; no exception out of
    [bounceShim] leaves a frame written; and with a slot that cannot be
    converted to the type of its position, [bounceShim] throws. *)
Theorem bounceShim_propagates_failure sig id stack w entry :
  extensionTablesMutex w = false →
  table_at w sig id = Some entry →
  (∀ e w1,
     evaluate_arguments
       (argument_expressions (engine entry) stack (argument_types sig)
          (seq 0 (length (argument_types sig)))) w
     = Threw e w1 →
     bounceShim sig id stack w = Threw e w1
     ∧ (∀ fun_, applyFun fun_ (engine entry) stack (argument_types sig) w
                = Threw e w1)
     ∧ stacks w1 = stacks w)
  ∧ (∀ vs w1 e w2,
       evaluate_arguments
         (argument_expressions (engine entry) stack (argument_types sig)
            (seq 0 (length (argument_types sig)))) w
       = Returned vs w1 →
       call (fn entry) vs w1 = Threw e w2 →
       bounceShim sig id stack w = Threw e w2 ∧ stacks w2 = stacks w)
  ∧ (∀ e w', bounceShim sig id stack w = Threw e w' → stacks w' = stacks w)
  ∧ (∀ a i T,
       stack = Some a →
       argument_types sig !! i = Some T →
       i ∈ argument_order (length (argument_types sig)) →
       (∀ rt, ∃ e rt',
          construct T (engine entry) (REN_STACK_ARGUMENT (stacks w a) i) rt
          = (inl e, rt')) →
       ∃ e w', bounceShim sig id stack w = Threw e w' ∧ stacks w' = stacks w).
Proof.
  intros Hm Hentry.
  rewrite (bounceShim_unfold _ _ _ _ _ Hm Hentry).
  pose proof (bounceShim_threw_stacks sig id stack w) as Hstacks.
  rewrite (bounceShim_unfold _ _ _ _ _ Hm Hentry) in Hstacks.
  split; [|split; [|split]].
  - intros e w1 Hargs.
    assert (∀ fun_, applyFun fun_ (engine entry) stack (argument_types sig) w
                    = Threw e w1) as Happly.
    { intros fun_. unfold applyFun, applyFunImpl, bind. by rewrite Hargs. }
    assert (bind (applyFun (fn entry) (engine entry) stack (argument_types sig))
              (fun result => bind (assign_return stack (cell result))
                               (fun _ => ret REN_SUCCESS)) w
            = Threw e w1) as Hout.
    { unfold bind at 1. by rewrite Happly. }
    eauto.
  - intros vs w1 e w2 Hargs Hcall.
    assert (bind (applyFun (fn entry) (engine entry) stack (argument_types sig))
              (fun result => bind (assign_return stack (cell result))
                               (fun _ => ret REN_SUCCESS)) w
            = Threw e w2) as Hout.
    { unfold bind at 1, applyFun, applyFunImpl, bind at 1.
      by rewrite Hargs, Hcall. }
    eauto.
  - exact Hstacks.
  - intros a i T -> HT Hin Hbad.
    enough (∃ e w',
      bind (applyFun (fn entry) (engine entry) (Some a) (argument_types sig))
        (fun result => bind (assign_return (Some a) (cell result))
                         (fun _ => ret REN_SUCCESS)) w
      = Threw e w') as (e & w' & Hout) by eauto.
    unfold bind at 1, applyFun, applyFunImpl, bind at 1, evaluate_arguments,
      bind at 1.
    rewrite argument_expressions_imap, length_imap.
    destruct (evaluate_in_order_throws w
                (argument_order (length (argument_types sig)))
                (imap (construct_argument (engine entry) (Some a))
                   (argument_types sig))
                i (construct_argument (engine entry) (Some a) i T))
      with (slots := replicate (length (argument_types sig)) (@None Value))
           (w := w)
      as (x & w' & ->); eauto using runtime_only_refl.
    + rewrite <- argument_expressions_imap. apply argument_expressions_confined.
    + by rewrite list_lookup_imap, HT.
    + intros w1 Hw1. simpl. unfold foreign.
      rewrite (runtime_only_stacks _ _ Hw1).
      destruct (Hbad (runtime w1)) as (e & rt' & ->). eauto.
    + intros j e' w1 t He'. rewrite list_lookup_imap in He'.
      destruct (argument_types sig !! j) as [T'|]; simplify_eq/=.
      unfold foreign. by destruct (construct _ _ _ _) as [[?|?] ?].
Qed.

Lemma bounceShim_locked sig id stack w :
  extensionTablesMutex w = true → bounceShim sig id stack w = Stuck Deadlock.
Proof. intros Hm. unfold bounceShim, bind, lock. by rewrite Hm. Qed.

(** What [bounceShim] leaves alone when it comes back, by return or by
    exception: the tables, the statics of every trampoline and the
    capture slots; the mutex is free again. *)
Lemma bounceShim_preserves sig id stack w w' :
  after (bounceShim sig id stack w) = Some w' →
  extensionTablesMutex w = false ∧ extensionTablesMutex w' = false ∧
  table w' = table w ∧ statics w' = statics w ∧
  shimIdToCapture w' = shimIdToCapture w ∧
  shimBouncerToCapture w' = shimBouncerToCapture w.
Proof.
  destruct (extensionTablesMutex w) eqn:Hm.
  { by rewrite bounceShim_locked. }
  unfold bounceShim, bind at 1, lock. rewrite Hm.
  unfold bind at 1, copy_entry.
  destruct (table_at _ sig id) as [entry|]; [|done].
  unfold bind at 1, unlock, modify. unfold bind at 1.
  pose proof (confined_applyFun (fn entry) (engine entry) stack
                (argument_types sig) (set_mutex false (set_mutex true w))) as Hc.
  destruct (applyFun _ _ _ _ _) as [r w1|x w1|t]; [| |done].
  - unfold bind, assign_return. destruct stack as [a|]; [|done].
    unfold modify, ret. intros [= <-]. by rewrite Hc.
  - intros [= <-]. by rewrite Hc.
Qed.

(** ** The trampoline *)

Lemma REN_STD_FUNCTION_identify site stack w :
  static_id (statics w site) = -1 →
  REN_STD_FUNCTION site stack w
  = Returned REN_SHIM_INITIALIZED (capture_identity site w).
Proof.
  intros Hid. unfold REN_STD_FUNCTION, bind, gets.
  by destruct (decide (static_id (statics w site) ≠ -1)).
Qed.

Lemma REN_STD_FUNCTION_forward site stack w :
  static_id (statics w site) ≠ -1 →
  REN_STD_FUNCTION site stack w
  = call_bouncer (static_bouncer (statics w site))
      (static_id (statics w site)) stack w.
Proof.
  intros Hid. unfold REN_STD_FUNCTION, bind, gets.
  by destruct (decide (static_id (statics w site) ≠ -1)).
Qed.

Lemma REN_STD_FUNCTION_leaves_tables site :
  leaves_tables (REN_STD_FUNCTION site).
Proof.
  intros stack w r w' Hrun.
  destruct (decide (static_id (statics w site) = -1)) as [Hid|Hid].
  - rewrite REN_STD_FUNCTION_identify in Hrun by done. by simplify_eq.
  - rewrite REN_STD_FUNCTION_forward in Hrun by done.
    destruct (static_bouncer (statics w site)) as [[sig]|]; [|done].
    simpl in Hrun.
    eapply bounceShim_preserves. by rewrite Hrun.
Qed.

(** A trampoline that forwards while a registration holds the mutex
    never comes back. *)
Lemma call_bouncer_locked bouncer id stack w :
  extensionTablesMutex w = true →
  after (call_bouncer bouncer id stack w) = None.
Proof.
  intros Hm. destruct bouncer as [[sig]|]; [|done].
  simpl. by rewrite bounceShim_locked.
Qed.

(** ** Registration *)

Lemma to_int_small z : 0 ≤ z < 2 ^ 31 → to_int z = z.
Proof. intros Hz. unfold to_int. rewrite Z.mod_small; lia. Qed.

Lemma to_size_t_small z : 0 ≤ z < 2 ^ 64 → to_size_t z = z.
Proof. intros Hz. unfold to_size_t. rewrite Z.mod_small; lia. Qed.

(** The index [table[id]] reads, for the id a table of [n] entries
    issues. *)
Lemma issued_index (n : nat) :
  Z.of_nat n < 2 ^ 31 → Z.to_nat (to_size_t (to_int (Z.of_nat n))) = n.
Proof.
  intros Hn. rewrite to_int_small, to_size_t_small by lia. lia.
Qed.

(** A registration with a trampoline of the macro that comes back, by
    return or by an exception of [finishInit]: it found the mutex free,
    the capture slots empty and the trampoline unidentified; it leaves
    the mutex free and the slots empty, has appended the entry, and the
    trampoline holds the size the table had and the signature's
    [bounceShim]. *)
Lemma FunctionGenerator_std_inv sig engine spec site fun_ w w' :
  after (FunctionGenerator sig engine spec (REN_STD_FUNCTION site) fun_ w)
  = Some w' →
  (extensionTablesMutex w = false ∧ capture_empty w ∧
   static_id (statics w site) = -1) ∧
  (extensionTablesMutex w' = false ∧ capture_empty w') ∧
  table w' = <[sig := table w sig ++ [{| engine := engine; fn := fun_ |}]]> (table w) ∧
  statics w'
  = <[site := {| static_id := to_int (Z.of_nat (length (table w sig)));
                 static_bouncer := Some (bounceShim_of sig) |}]> (statics w) ∧
  stacks w' = stacks w.
Proof.
  unfold FunctionGenerator, lock_guard, lock.
  destruct (extensionTablesMutex w) eqn:Hm; [done|].
  unfold bind at 1, gets at 1. unfold bind at 1. cbn [shimIdToCapture set_mutex].
  destruct (bool_decide (shimIdToCapture w = -1)) eqn:Hid; [|done].
  apply bool_decide_eq_true in Hid.
  unfold assert at 1, ret at 1, bind at 1, gets, bind at 1.
  cbn [shimBouncerToCapture set_mutex].
  destruct (bool_decide (shimBouncerToCapture w = None)) eqn:Hb; [|done].
  apply bool_decide_eq_true in Hb.
  unfold assert, ret at 1, bind at 1, modify at 1, bind at 1.
  destruct (decide (static_id (statics w site) = -1)) as [Hs|Hs].
  - rewrite REN_STD_FUNCTION_identify by done.
    destruct (decide (REN_SHIM_INITIALIZED ≠ REN_SHIM_INITIALIZED)); [done|].
    unfold bind at 1, modify at 1, bind at 1, modify, foreign.
    cbn [runtime set_capture set_mutex push_back set_table capture_identity
         set_statics].
    destruct (finishInit engine spec (runtime w)) as [[e|f] rt];
      intros [= <-]; done.
  - rewrite REN_STD_FUNCTION_forward by done.
    pose proof (call_bouncer_locked
      (static_bouncer (statics w site)) (static_id (statics w site)) None
      (set_capture (to_int (Z.of_nat (length (table w sig))))
         (Some (bounceShim_of sig)) (set_mutex true w)) (reflexivity _)) as Hstuck.
    cbn [statics set_capture set_mutex] in *.
    destruct (call_bouncer _ _ _ _); done.
Qed.

(** ** Runs of a process *)

Lemma after_bind_ret {A} (c : M A) w :
  after (bind c (fun _ => ret tt) w) = after (c w).
Proof. unfold bind. by destruct (c w). Qed.

(** One step appends to the tables at most and leaves the statics of
    every identified trampoline alone. *)
Lemma perform_inv a w w' :
  after (perform a w) = Some w' →
  (∀ sig, table w sig `prefix_of` table w' sig) ∧
  (∀ site, static_id (statics w site) ≠ -1 → statics w' site = statics w site).
Proof.
  destruct a as [sig engine spec site' fun_|site' stack|s r]; simpl.
  - rewrite after_bind_ret. intros Hreg.
    apply FunctionGenerator_std_inv in Hreg
      as ((_ & _ & Hfresh) & _ & Htable & Hstatics & _).
    rewrite Htable, Hstatics. split.
    + intros sig'. destruct (decide (sig = sig')) as [->|Hne].
      * rewrite fn_lookup_insert. by apply prefix_app_r.
      * by rewrite fn_lookup_insert_ne.
    + intros site Hid. rewrite fn_lookup_insert_ne; [done|congruence].
  - rewrite after_bind_ret.
    destruct (decide (static_id (statics w site') = -1)) as [Hid|Hid].
    + rewrite REN_STD_FUNCTION_identify by done. intros [= <-]. split; [done|].
      intros site Hsite. simpl. rewrite fn_lookup_insert_ne; [done|congruence].
    + rewrite REN_STD_FUNCTION_forward by done.
      destruct (static_bouncer (statics w site')) as [[sig]|]; [|done].
      intros Hrun. apply bounceShim_preserves in Hrun
        as (_ & _ & -> & -> & _). done.
  - by intros [= <-].
Qed.

Lemma run_inv actions w w' :
  run actions w = Some w' →
  (∀ sig, table w sig `prefix_of` table w' sig) ∧
  (∀ site, static_id (statics w site) ≠ -1 → statics w' site = statics w site).
Proof.
  revert w. induction actions as [|a actions IH]; intros w; simpl.
  - by intros [= <-].
  - destruct (after (perform a w)) as [w1|] eqn:Hstep; [|done].
    intros Hrun. apply perform_inv in Hstep as [Ht1 Hs1].
    apply IH in Hrun as [Ht2 Hs2]. split.
    + intros sig. etransitivity; [apply Ht1|apply Ht2].
    + intros site Hid. rewrite Hs2, Hs1; [done..|]. by rewrite Hs1.
Qed.

(** A registration that came back, followed by any run: the trampoline
    still holds the id it was issued, the size the table had, and the
    entry is still where it was appended. *)
Lemma registered_then_run sig engine spec site fun_ w w1 actions w2 :
  after (FunctionGenerator sig engine spec (REN_STD_FUNCTION site) fun_ w)
  = Some w1 →
  run actions w1 = Some w2 →
  fits_int w2 sig →
  static_id (statics w site) = -1 ∧
  statics w2 site
  = {| static_id := Z.of_nat (length (table w sig));
       static_bouncer := Some (bounceShim_of sig) |} ∧
  table_at w2 sig (Z.of_nat (length (table w sig)))
  = Some {| engine := engine; fn := fun_ |} ∧
  (length (table w sig) < length (table w2 sig))%nat ∧
  (∀ sig', table w sig' `prefix_of` table w2 sig').
Proof.
  intros Hreg Hrun Hfits.
  apply FunctionGenerator_std_inv in Hreg
    as ((_ & _ & Hfresh) & _ & Htable & Hstatics & _).
  apply run_inv in Hrun as [Hprefix Hstable].
  assert (table w1 sig = table w sig ++ [{| engine := engine; fn := fun_ |}])
    as Hsig by (by rewrite Htable, fn_lookup_insert).
  pose proof (prefix_length _ _ (Hprefix sig)) as Hlen.
  rewrite Hsig, length_app in Hlen. simpl in Hlen.
  unfold fits_int in Hfits.
  assert (to_int (Z.of_nat (length (table w sig)))
          = Z.of_nat (length (table w sig))) as Hint
    by (apply to_int_small; lia).
  split; [done|]. split; [|split; [|split]].
  - rewrite Hstable; rewrite Hstatics, fn_lookup_insert; simpl; rewrite Hint;
      [done|lia].
  - unfold table_at. rewrite to_size_t_small, Nat2Z.id by lia.
    eapply prefix_lookup_Some; [|apply Hprefix].
    rewrite Hsig. by apply list_lookup_middle.
  - lia.
  - intros sig'. etransitivity; [|apply Hprefix]. rewrite Htable.
    destruct (decide (sig = sig')) as [->|Hne].
    + rewrite fn_lookup_insert. by apply prefix_app_r.
    + by rewrite fn_lookup_insert_ne.
Qed.

Lemma initial_well_formed s r : well_formed (initial s r).
Proof. split; [done|]. intros site Hid. done. Qed.

Lemma perform_well_formed a w w' :
  after (perform a w) = Some w' → well_formed w → well_formed w'.
Proof.
  intros Hstep [Hempty Hids].
  pose proof (perform_inv _ _ _ Hstep) as [Hprefix _].
  assert (∀ site sig (n : nat),
            statics w site
            = {| static_id := to_int (Z.of_nat n);
                 static_bouncer := Some (bounceShim_of sig) |} →
            (n < length (table w sig))%nat →
            (n < length (table w' sig))%nat) as Hgrow.
  { intros _ sig n _ Hn. pose proof (prefix_length _ _ (Hprefix sig)). lia. }
  destruct a as [sig engine spec site' fun_|site' stack|s r]; simpl in Hstep.
  - rewrite after_bind_ret in Hstep.
    apply FunctionGenerator_std_inv in Hstep
      as (_ & (_ & Hempty') & Htable & Hstatics & _).
    split; [done|]. intros site Hid. rewrite Hstatics in Hid |- *.
    destruct (decide (site' = site)) as [->|Hne].
    + rewrite fn_lookup_insert. exists sig, (length (table w sig)).
      split; [done|]. rewrite Htable, fn_lookup_insert, length_app. simpl. lia.
    + rewrite fn_lookup_insert_ne in Hid |- * by done.
      destruct (Hids site Hid) as (sig' & n & Hs & Hn). eauto.
  - rewrite after_bind_ret in Hstep.
    destruct (decide (static_id (statics w site') = -1)) as [Hid'|Hid'].
    + rewrite REN_STD_FUNCTION_identify in Hstep by done.
      simpl in Hstep. injection Hstep as <-.
      split; [exact Hempty|]. intros site. simpl.
      destruct Hempty as [Hcid Hcb].
      destruct (decide (site' = site)) as [->|Hne].
      * rewrite fn_lookup_insert. simpl. by rewrite Hcid.
      * rewrite fn_lookup_insert_ne by done. intros Hid.
        destruct (Hids site Hid) as (sig' & n & Hs & Hn). eauto.
    + rewrite REN_STD_FUNCTION_forward in Hstep by done.
      destruct (static_bouncer (statics w site')) as [[sig]|]; [|done].
      apply bounceShim_preserves in Hstep as (_ & _ & Ht & Hs & Hcid & Hcb).
      split; [unfold capture_empty; by rewrite Hcid, Hcb|].
      intros site Hid. rewrite Hs in Hid |- *.
      destruct (Hids site Hid) as (sig' & n & Hs' & Hn).
      exists sig', n. by rewrite Ht.
  - injection Hstep as <-. split; [exact Hempty|exact Hids].
Qed.

Lemma run_well_formed actions w w' :
  run actions w = Some w' → well_formed w → well_formed w'.
Proof.
  revert w. induction actions as [|a actions IH]; intros w; simpl.
  - by intros [= <-].
  - destruct (after (perform a w)) as [w1|] eqn:Hstep; [|done].
    eauto using perform_well_formed.
Qed.

Lemma after_Returned {A} (c : M A) w a w' :
  c w = Returned a w' → after (c w) = Some w'.
Proof. by intros ->. Qed.

(** ** The claims on registration and identity *)

(** C9: the id a successful registration issues is the number of
    entries the signature's table held when the registration began; the
    entry is appended at that index; the tables of the other signatures
    are left alone; on an empty table the id is 0. *)
Theorem registration_issues_table_size sig engine spec site fun_ w f w' :
  FunctionGenerator sig engine spec (REN_STD_FUNCTION site) fun_ w
  = Returned f w' →
  fits_int w' sig →
  static_id (statics w' site) = Z.of_nat (length (table w sig))
  ∧ table w' sig = table w sig ++ [{| engine := engine; fn := fun_ |}]
  ∧ table_at w' sig (static_id (statics w' site))
    = Some {| engine := engine; fn := fun_ |}
  ∧ (∀ sig', sig' ≠ sig → table w' sig' = table w sig')
  ∧ (table w sig = [] → static_id (statics w' site) = 0).
Proof.
  intros Hreg Hfits. apply after_Returned in Hreg.
  destruct (registered_then_run _ _ _ _ _ _ _ [] _ Hreg (reflexivity _) Hfits)
    as (_ & Hstatics & Hat & _ & _).
  apply FunctionGenerator_std_inv in Hreg as (_ & _ & Htable & _).
  rewrite Hstatics. simpl. split; [done|]. split; [|split; [done|split]].
  - by rewrite Htable, fn_lookup_insert.
  - intros sig' Hne. by rewrite Htable, fn_lookup_insert_ne.
  - by intros ->.
Qed.

(** C7: two registrations of the same signature, one after the other
    with anything in between and after, both successful: the two ids are
    different, neither changes, each still resolves to the entry of its
    own registration, and every table has grown by appending only. *)
Theorem issued_ids_distinct_and_stable
    sig e1 spec1 s1 fun1 f1 e2 spec2 s2 fun2 f2 between later w0 w1 w2 w3 w4 :
  FunctionGenerator sig e1 spec1 (REN_STD_FUNCTION s1) fun1 w0 = Returned f1 w1 →
  run between w1 = Some w2 →
  FunctionGenerator sig e2 spec2 (REN_STD_FUNCTION s2) fun2 w2 = Returned f2 w3 →
  run later w3 = Some w4 →
  fits_int w4 sig →
  static_id (statics w4 s1) ≠ static_id (statics w4 s2)
  ∧ static_id (statics w4 s1) = static_id (statics w1 s1)
  ∧ static_id (statics w4 s2) = static_id (statics w3 s2)
  ∧ table_at w4 sig (static_id (statics w4 s1)) = Some {| engine := e1; fn := fun1 |}
  ∧ table_at w4 sig (static_id (statics w4 s2)) = Some {| engine := e2; fn := fun2 |}
  ∧ (∀ sig', table w0 sig' `prefix_of` table w4 sig').
Proof.
  intros Hreg1 Hbetween Hreg2 Hlater Hfits.
  apply after_Returned in Hreg1, Hreg2.
  assert (run (between ++ Register sig e2 spec2 s2 fun2 :: later) w1 = Some w4)
    as Hall.
  { clear Hreg1. revert w1 Hbetween.
    induction between as [|a between IH]; intros w1; simpl.
    - intros [= ->]. by rewrite after_bind_ret, Hreg2.
    - destruct (after (perform a w1)); [apply IH|done]. }
  destruct (registered_then_run _ _ _ _ _ _ _ _ _ Hreg1 Hall Hfits)
    as (_ & Hs1 & Hat1 & Hlen1 & Hprefix).
  destruct (registered_then_run _ _ _ _ _ _ _ _ _ Hreg2 Hlater Hfits)
    as (_ & Hs2 & Hat2 & Hlen2 & _).
  assert (fits_int w1 sig) as Hfits1.
  { unfold fits_int in *.
    pose proof (run_inv _ _ _ Hall) as [Hp _].
    pose proof (prefix_length _ _ (Hp sig)). lia. }
  assert (fits_int w3 sig) as Hfits3.
  { unfold fits_int in *.
    pose proof (run_inv _ _ _ Hlater) as [Hp _].
    pose proof (prefix_length _ _ (Hp sig)). lia. }
  destruct (registered_then_run _ _ _ _ _ _ _ [] _ Hreg1 (reflexivity _) Hfits1)
    as (_ & Hs1' & _ & Hlen1' & _).
  destruct (registered_then_run _ _ _ _ _ _ _ [] _ Hreg2 (reflexivity _) Hfits3)
    as (_ & Hs2' & _).
  rewrite Hs1, Hs2, Hs1', Hs2'. simpl.
  repeat split; try done.
  pose proof (run_inv _ _ _ Hbetween) as [Hp _].
  pose proof (prefix_length _ _ (Hp sig)). lia.
Qed.

(** C8: the id issued by a completed registration stays within the
    bounds of its signature's table, so the lookup of [bounceShim] finds
    the entry; in a process that started with nothing registered, every
    trampoline that forwards at all forwards an id that is within the
    bounds of its dispatcher's table; and an id outside the bounds is no
    error the caller could handle: [bounceShim] neither returns nor
    throws there. *)
Theorem issued_id_in_bounds sig engine spec site fun_ w f w1 actions w2 :
  FunctionGenerator sig engine spec (REN_STD_FUNCTION site) fun_ w
  = Returned f w1 →
  run actions w1 = Some w2 →
  fits_int w2 sig →
  (0 ≤ static_id (statics w2 site) < Z.of_nat (length (table w2 sig)))
  ∧ static_bouncer (statics w2 site) = Some (bounceShim_of sig)
  ∧ copy_entry sig (static_id (statics w2 site)) w2
    = Returned {| engine := engine; fn := fun_ |} w2
  ∧ (∀ s r actions' w' site' sig',
       run actions' (initial s r) = Some w' →
       static_id (statics w' site') ≠ -1 →
       static_bouncer (statics w' site') = Some (bounceShim_of sig') →
       fits_int w' sig' →
       is_Some (table_at w' sig' (static_id (statics w' site'))))
  ∧ (∀ w' id stack,
       extensionTablesMutex w' = false →
       table_at w' sig id = None →
       bounceShim sig id stack w' = Stuck TableOutOfRange).
Proof.
  intros Hreg Hrun Hfits. apply after_Returned in Hreg.
  destruct (registered_then_run _ _ _ _ _ _ _ _ _ Hreg Hrun Hfits)
    as (_ & Hs & Hat & Hlen & _).
  rewrite Hs. simpl. split; [lia|]. split; [done|]. split; [|split].
  - unfold copy_entry. by rewrite Hat.
  - intros s r actions' w' site' sig' Hrun' Hid Hb Hfits'.
    destruct (run_well_formed _ _ _ Hrun' (initial_well_formed s r))
      as [_ Hids].
    destruct (Hids site' Hid) as (sig'' & n & Hs' & Hn).
    rewrite Hs' in Hb |- *. simpl in *. simplify_eq.
    unfold table_at, fits_int in *. rewrite issued_index by lia.
    by apply lookup_lt_is_Some_2.
  - intros w' id stack Hm Hnone. unfold bounceShim, bind, lock, copy_entry.
    rewrite Hm.
    change (table_at (set_mutex true w')) with (table_at w'). by rewrite Hnone.
Qed.

(** C2: the registration finds the trampoline unset and leaves it
    holding the issued id and the signature's dispatcher; whatever the
    process does afterwards, that identity is the same, and every call
    of the trampoline is the dispatcher's call with that id, which finds
    the entry of this registration: the identify phase is not run
    again. *)
Theorem trampoline_identified_once sig engine spec site fun_ w f w1 actions w2 :
  FunctionGenerator sig engine spec (REN_STD_FUNCTION site) fun_ w
  = Returned f w1 →
  run actions w1 = Some w2 →
  fits_int w2 sig →
  statics w site ≠ statics w2 site
  ∧ static_id (statics w site) = -1
  ∧ statics w1 site = statics w2 site
  ∧ static_id (statics w2 site) ≠ -1
  ∧ static_bouncer (statics w2 site) = Some (bounceShim_of sig)
  ∧ table_at w2 sig (static_id (statics w2 site))
    = Some {| engine := engine; fn := fun_ |}
  ∧ ∀ stack,
      REN_STD_FUNCTION site stack w2
      = bounceShim sig (static_id (statics w2 site)) stack w2.
Proof.
  intros Hreg Hrun Hfits. apply after_Returned in Hreg.
  destruct (registered_then_run _ _ _ _ _ _ _ _ _ Hreg Hrun Hfits)
    as (Hfresh & Hs & Hat & Hlen & _).
  assert (fits_int w1 sig) as Hfits1.
  { unfold fits_int in *.
    pose proof (run_inv _ _ _ Hrun) as [Hp _].
    pose proof (prefix_length _ _ (Hp sig)). lia. }
  destruct (registered_then_run _ _ _ _ _ _ _ [] _ Hreg (reflexivity _) Hfits1)
    as (_ & Hs1 & _).
  assert (static_id (statics w2 site) ≠ -1) as Hid by (rewrite Hs; simpl; lia).
  repeat split; try done.
  - intros Heq. by rewrite <- Heq in Hid.
  - by rewrite Hs, Hs1.
  - by rewrite Hs.
  - by rewrite Hs.
  - intros stack. rewrite REN_STD_FUNCTION_forward by done. by rewrite Hs.
Qed.

(** C10: a trampoline called in its unset state while the capture slots
    are empty stores the sentinel and a null bouncer, returns
    [REN_SHIM_INITIALIZED] and is as unidentified as before, so that its
    next call is an identify call again; an identify call gives the
    same result for every stack pointer and every content of the
    stacks, and leaves the stacks as they are. *)
Theorem identify_outside_registration site stack w :
  static_id (statics w site) = -1 →
  capture_empty w →
  REN_STD_FUNCTION site stack w
  = Returned REN_SHIM_INITIALIZED (capture_identity site w)
  ∧ statics (capture_identity site w) site = unidentified
  ∧ (∀ stack' w',
       statics w' site = statics (capture_identity site w) site →
       REN_STD_FUNCTION site stack' w'
       = Returned REN_SHIM_INITIALIZED (capture_identity site w'))
  ∧ stacks (capture_identity site w) = stacks w
  ∧ (∀ stack' s,
       REN_STD_FUNCTION site stack' (set_stacks s w)
       = Returned REN_SHIM_INITIALIZED
           (set_stacks s (capture_identity site w))).
Proof.
  intros Hid [Hcid Hcb].
  assert (statics (capture_identity site w) site = unidentified) as Hun.
  { simpl. by rewrite fn_lookup_insert, Hcid, Hcb. }
  split; [by apply REN_STD_FUNCTION_identify|].
  split; [done|]. split; [|split; [done|]].
  - intros stack' w' Hsame. apply REN_STD_FUNCTION_identify.
    by rewrite Hsame, Hun.
  - intros stack' s. by rewrite REN_STD_FUNCTION_identify.
Qed.

(** C5: when the identify call of the shim returns anything but
    [REN_SHIM_INITIALIZED], the constructor throws its
    [std::runtime_error] at once; the tables are what they were when the
    registration began, no entry having been appended. *)
Theorem registration_rejects_shim sig engine spec shim fun_ w r w' :
  extensionTablesMutex w = false →
  capture_empty w →
  leaves_tables shim →
  shim None
    (set_capture (to_int (Z.of_nat (length (table w sig))))
       (Some (bounceShim_of sig)) (set_mutex true w))
  = Returned r w' →
  r ≠ REN_SHIM_INITIALIZED →
  FunctionGenerator sig engine spec shim fun_ w
  = Threw (runtime_error "First shim call didn't return REN_SHIM_INITIALIZED")
      (set_mutex false w')
  ∧ table (set_mutex false w') = table w.
Proof.
  intros Hm [Hid Hb] Hshim Hcall Hr.
  split; [|exact (Hshim _ _ _ _ Hcall)].
  unfold FunctionGenerator, lock_guard, lock. rewrite Hm.
  unfold bind at 1, gets at 1. unfold bind at 1. cbn [shimIdToCapture set_mutex].
  rewrite Hid. simpl.
  unfold bind at 1, gets, bind at 1. cbn [shimBouncerToCapture set_mutex].
  rewrite Hb. simpl.
  unfold bind at 1, modify at 1, bind at 1. cbn [table set_mutex].
  rewrite Hcall. by destruct (decide (r ≠ REN_SHIM_INITIALIZED)).
Qed.

End Properties.

(** * Further properties of the layer *)

Section Further.

Context `{Hooks}.

Implicit Types (w : World) (sig : Signature) (id : RenShimId).
Implicit Types (stack : StackPointer) (site : nat).

(** ** Registration, case by case *)

(** The constructor, run with a trampoline of the macro that has no
    identity yet, in a process whose mutex is free and whose capture
    slots are empty: everything up to [finishInit] goes through. *)
Lemma FunctionGenerator_std_unfold sig engine spec site fun_ w :
  extensionTablesMutex w = false →
  capture_empty w →
  static_id (statics w site) = -1 →
  FunctionGenerator sig engine spec (REN_STD_FUNCTION site) fun_ w
  = match finishInit engine spec (runtime w) with
    | (inr f, rt) => Returned f (registered sig engine site fun_ rt w)
    | (inl e, rt) => Threw (thrown e) (registered sig engine site fun_ rt w)
    end.
Proof.
  intros Hm [Hid Hb] Hs.
  unfold FunctionGenerator, lock_guard, lock. rewrite Hm.
  unfold bind at 1, gets at 1. unfold bind at 1. cbn [shimIdToCapture set_mutex].
  rewrite Hid. simpl.
  unfold bind at 1, gets, bind at 1. cbn [shimBouncerToCapture set_mutex].
  rewrite Hb. simpl.
  unfold bind at 1, modify at 1, bind at 1.
  rewrite REN_STD_FUNCTION_identify by done.
  destruct (decide (REN_SHIM_INITIALIZED ≠ REN_SHIM_INITIALIZED)); [done|].
  unfold bind at 1, modify at 1, bind at 1, modify, foreign.
  cbn [runtime set_capture set_mutex push_back set_table capture_identity
       set_statics].
  by destruct (finishInit engine spec (runtime w)) as [[e|f] rt].
Qed.

(** X1: a registration with a fresh trampoline succeeds whenever the
    mutex is free, the capture slots are empty and [finishInit] accepts
    the function; it changes the signature's table (one entry more), the
    statics of this trampoline, the runtime's state, and nothing else. *)
Theorem registration_succeeds sig engine spec site fun_ w f rt :
  extensionTablesMutex w = false →
  capture_empty w →
  static_id (statics w site) = -1 →
  finishInit engine spec (runtime w) = (inr f, rt) →
  FunctionGenerator sig engine spec (REN_STD_FUNCTION site) fun_ w
  = Returned f (registered sig engine site fun_ rt w).
Proof.
  intros Hm Hc Hs Hf. rewrite FunctionGenerator_std_unfold by done.
  by rewrite Hf.
Qed.

(** X2: when [finishInit] throws, the constructor throws the same
    exception, but the registration is not undone: the entry stays in
    the table and the trampoline keeps the identity it captured. *)
Theorem finishInit_failure_keeps_entry sig engine spec site fun_ w e rt :
  extensionTablesMutex w = false →
  capture_empty w →
  static_id (statics w site) = -1 →
  finishInit engine spec (runtime w) = (inl e, rt) →
  ∃ w',
    FunctionGenerator sig engine spec (REN_STD_FUNCTION site) fun_ w
    = Threw (thrown e) w'
    ∧ table w' sig = table w sig ++ [{| engine := engine; fn := fun_ |}]
    ∧ statics w' site
      = {| static_id := to_int (Z.of_nat (length (table w sig)));
           static_bouncer := Some (bounceShim_of sig) |}
    ∧ capture_empty w' ∧ extensionTablesMutex w' = false.
Proof.
  intros Hm Hc Hs Hf. exists (registered sig engine site fun_ rt w).
  rewrite FunctionGenerator_std_unfold by done. rewrite Hf.
  split; [done|]. simpl. rewrite !fn_lookup_insert. done.
Qed.

(** X3: a trampoline that already holds an identity cannot be used for
    another registration: its identify call forwards to the dispatcher,
    which locks the mutex the constructor holds. *)
Theorem registration_with_identified_trampoline sig engine spec site fun_ w sig' :
  extensionTablesMutex w = false →
  capture_empty w →
  dispatches_to w site sig' →
  FunctionGenerator sig engine spec (REN_STD_FUNCTION site) fun_ w
  = Stuck Deadlock.
Proof.
  intros Hm [Hid Hb] [Hs Hbouncer].
  unfold FunctionGenerator, lock_guard, lock. rewrite Hm.
  unfold bind at 1, gets at 1. unfold bind at 1. cbn [shimIdToCapture set_mutex].
  rewrite Hid. simpl.
  unfold bind at 1, gets, bind at 1. cbn [shimBouncerToCapture set_mutex].
  rewrite Hb. simpl.
  unfold bind at 1, modify at 1, bind at 1.
  rewrite REN_STD_FUNCTION_forward by done.
  cbn [statics set_capture set_mutex]. rewrite Hbouncer.
  cbn [call_bouncer]. by rewrite bounceShim_locked.
Qed.

(** X4: the guards of the constructor, for any shim whatever: with the
    mutex held (a registration from inside a shim, say) it deadlocks,
    and with a capture slot occupied its [assert] fails; the shim is not
    called in either case. *)
Theorem registration_guards sig engine spec (shim : RenShimPointer) fun_ w :
  (extensionTablesMutex w = true →
   FunctionGenerator sig engine spec shim fun_ w = Stuck Deadlock)
  ∧ (extensionTablesMutex w = false → ¬ capture_empty w →
     FunctionGenerator sig engine spec shim fun_ w = Stuck AssertionFailed).
Proof.
  split.
  - intros Hm. unfold FunctionGenerator, lock_guard, lock. by rewrite Hm.
  - intros Hm Hc. unfold FunctionGenerator, lock_guard, lock. rewrite Hm.
    unfold bind at 1, gets at 1. unfold bind at 1.
    cbn [shimIdToCapture set_mutex].
    destruct (bool_decide (shimIdToCapture w = -1)) eqn:Hid; [|done].
    apply bool_decide_eq_true in Hid.
    unfold assert at 1, ret at 1, bind at 1, gets, bind at 1.
    cbn [shimBouncerToCapture set_mutex].
    destruct (bool_decide (shimBouncerToCapture w = None)) eqn:Hb; [|done].
    apply bool_decide_eq_true in Hb. by destruct Hc.
Qed.

(** ** The dispatcher and the trampoline at the edges *)

(** X5: an identified trampoline called with a null stack never
    returns: whatever happens before, the write of the result goes
    through the null pointer. *)
Theorem forwarding_null_stack_never_returns site w r w' :
  static_id (statics w site) ≠ -1 →
  REN_STD_FUNCTION site None w ≠ Returned r w'.
Proof.
  intros Hid. rewrite REN_STD_FUNCTION_forward by done.
  destruct (static_bouncer (statics w site)) as [[sig]|]; [|done].
  simpl. unfold bounceShim, bind at 1, lock.
  destruct (extensionTablesMutex w); [done|].
  unfold bind at 1, copy_entry.
  destruct (table_at _ sig _) as [entry|]; [|done].
  unfold bind at 1, unlock, modify, bind at 1.
  by destruct (applyFun _ _ _ _ _).
Qed.

(** X6: an entry registered with an empty [std::function] (the default
    argument of the constructor) makes every invocation throw
    [bad_function_call], after the arguments have been converted; the
    frames are left as they were. *)
Theorem empty_function_throws sig id stack w entry vs w1 :
  extensionTablesMutex w = false →
  table_at w sig id = Some entry →
  fn entry = None →
  evaluate_arguments
    (argument_expressions (engine entry) stack (argument_types sig)
       (seq 0 (length (argument_types sig)))) w
  = Returned vs w1 →
  bounceShim sig id stack w = Threw bad_function_call w1
  ∧ stacks w1 = stacks w.
Proof.
  intros Hm Hentry Hfn Hargs.
  assert (bounceShim sig id stack w = Threw bad_function_call w1) as Hout.
  { rewrite (bounceShim_unfold _ _ _ _ _ Hm Hentry).
    unfold bind at 1, applyFun, applyFunImpl, bind at 1.
    by rewrite Hargs, Hfn. }
  split; [done|]. by eapply bounceShim_threw_stacks.
Qed.



(** No argument expression traps on a stack that is not null. *)
Lemma construct_argument_safe engine a Ts j (e : M Value) w t :
  imap (construct_argument engine (Some a)) Ts !! j = Some e →
  e w ≠ Stuck t.
Proof.
  rewrite list_lookup_imap. intros He.
  destruct (Ts !! j) as [T|]; simplify_eq/=.
  unfold foreign. by destruct (construct _ _ _ _) as [[?|?] ?].
Qed.

Lemma evaluate_in_order_safe {A} order (exprs : list (M A)) :
  (∀ j (e : M A) w t, exprs !! j = Some e → e w ≠ Stuck t) →
  ∀ slots w t, evaluate_in_order order exprs slots w ≠ Stuck t.
Proof.
  intros Hsafe. induction order as [|j order IH]; intros slots w t; [done|].
  simpl. destruct (exprs !! j) as [e|] eqn:He; [|apply IH].
  unfold bind. destruct (e w) as [v w1|x w1|t'] eqn:Hev; [apply IH|done|].
  by destruct (Hsafe _ _ _ _ He Hev).
Qed.

(** Every position the order visits is filled in the end, and a filled
    slot stays filled. *)
Lemma evaluate_in_order_fills {A} order (exprs : list (M A)) :
  ∀ slots w slots' w',
    evaluate_in_order order exprs slots w = Returned slots' w' →
    length slots = length exprs →
    ∀ i, (i < length exprs)%nat →
      (i ∈ order ∨ ∃ v, slots !! i = Some (Some v)) →
      ∃ v, slots' !! i = Some (Some v).
Proof.
  induction order as [|j order IH]; intros slots w slots' w' Hrun Hlen i Hi Hpos;
    simpl in Hrun.
  - unfold ret in Hrun. simplify_eq.
    destruct Hpos as [Hin|?]; [|done]. by apply elem_of_nil in Hin.
  - destruct (exprs !! j) as [e|] eqn:He.
    + unfold bind in Hrun.
      destruct (e w) as [v w1|x w1|t]; [|done..].
      apply (IH _ _ _ _ Hrun); [by rewrite length_insert|done|].
      destruct (decide (i = j)) as [->|Hne].
      * right. exists v. apply list_lookup_insert_eq. lia.
      * destruct Hpos as [Hin|[u Hu]].
        -- apply elem_of_cons in Hin as [?|?]; [done|by left].
        -- right. exists u. by rewrite list_lookup_insert_ne.
    + apply (IH _ _ _ _ Hrun); [done..|].
      destruct Hpos as [Hin|?]; [|by right].
      apply elem_of_cons in Hin as [->|?]; [|by left].
      apply lookup_ge_None in He. lia.
Qed.

(** X9: with a compiler that evaluates every argument, the mutex free,
    the id in the table and a stack that is not null, an invocation
    either returns or throws: it does not trap. *)
Theorem bounceShim_does_not_trap sig id a w entry t :
  extensionTablesMutex w = false →
  table_at w sig id = Some entry →
  evaluates_all (length (argument_types sig)) →
  bounceShim sig id (Some a) w ≠ Stuck t.
Proof.
  intros Hm Hentry Hall.
  rewrite (bounceShim_unfold _ _ _ _ _ Hm Hentry).
  unfold bind at 1, applyFun, applyFunImpl, bind at 1, evaluate_arguments,
    bind at 1.
  rewrite argument_expressions_imap, length_imap.
  destruct (evaluate_in_order _ _ _ w) as [slots w1|x w1|t'] eqn:Hev; [|done|].
  - destruct (mapM _ slots) as [vs|] eqn:Hseq.
    + unfold ret. destruct (fn entry) as [callee|]; [|done]. simpl.
      unfold foreign. by destruct (callee _ _) as [[?|?] ?].
    + apply mapM_None_1, Exists_exists in Hseq as (s & Hin & ->).
      apply list_elem_of_lookup in Hin as [i Hi].
      pose proof (evaluate_in_order_slots w _ _
        (eq_ind_r (Forall confined)
           (argument_expressions_confined (engine entry) (Some a)
              (argument_types sig) (seq 0 (length (argument_types sig))))
           (eq_sym (argument_expressions_imap _ _ _)))
        _ _ _ _ (runtime_only_refl w) Hev) as [Hlen _].
      { intros j v Hj. by apply lookup_replicate in Hj as [? _]. }
      rewrite length_replicate in Hlen.
      assert (i < length (argument_types sig))%nat as Hlt.
      { apply lookup_lt_Some in Hi. lia. }
      destruct (evaluate_in_order_fills _ _ _ _ _ _ Hev) with (i := i)
        as [v Hv]; rewrite ?length_replicate, ?length_imap; auto.
      congruence.
  - by destruct (evaluate_in_order_safe _ _
                   (construct_argument_safe (engine entry) a (argument_types sig))
                   _ _ _ Hev).
Qed.

(** ** Whole processes *)









Lemma run_mutex_free actions w w' :
  run actions w = Some w' →
  extensionTablesMutex w = false → extensionTablesMutex w' = false.
Proof.
  revert w. induction actions as [|a actions IH]; intros w; simpl.
  - by intros [= <-].
  - destruct (after (perform a w)) as [w1|] eqn:Hstep; [|done].
    intros Hrun Hm. apply (IH _ Hrun). clear Hrun IH.
    destruct a as [sig engine spec site fun_|site stack|s r]; simpl in Hstep.
    + rewrite after_bind_ret in Hstep.
      by apply FunctionGenerator_std_inv in Hstep as (_ & (? & _) & _).
    + rewrite after_bind_ret in Hstep.
      destruct (decide (static_id (statics w site) = -1)) as [Hid|Hid].
      * rewrite REN_STD_FUNCTION_identify in Hstep by done.
        simpl in Hstep. by injection Hstep as <-.
      * rewrite REN_STD_FUNCTION_forward in Hstep by done.
        destruct (static_bouncer (statics w site)) as [[sig]|]; [|done].
        by apply bounceShim_preserves in Hstep as (_ & ? & _).
    + by injection Hstep as <-.
Qed.

(** X13: from [makeFunction_] to the call.  Once a lambda is registered
    with a trampoline, then, whatever the process does in between, a
    call of the trampoline on a frame whose arguments convert runs the
    lambda on the converted values, writes the cell of its result into
    the return slot of that frame and returns [REN_SUCCESS]. *)
Theorem registered_lambda_is_called
    engine spec site (lam : Lambda) w f w1 actions w2 a vs w3 r rt :
  makeFunction_ engine spec (REN_STD_FUNCTION site) lam w = Returned f w1 →
  run actions w1 = Some w2 →
  fits_int w2 {| result_type := lambda_result lam;
                 argument_types := lambda_args lam |} →
  evaluate_arguments
    (argument_expressions engine (Some a) (lambda_args lam)
       (seq 0 (length (lambda_args lam)))) w2
  = Returned vs w3 →
  lambda_call lam vs (runtime w3) = (inr r, rt) →
  REN_STD_FUNCTION site (Some a) w2
  = Returned REN_SUCCESS
      (set_stacks (<[a := write_return (cell r) (stacks w2 a)]> (stacks w2))
         (set_runtime rt w2)).
Proof.
  unfold makeFunction_. intros Hreg Hrun Hfits Hargs Hcall.
  apply after_Returned in Hreg.
  destruct (registered_then_run _ _ _ _ _ _ _ _ _ Hreg Hrun Hfits)
    as (_ & Hs & Hat & _).
  apply FunctionGenerator_std_inv in Hreg as (_ & (Hm1 & _) & _).
  pose proof (run_mutex_free _ _ _ Hrun Hm1) as Hm.
  rewrite REN_STD_FUNCTION_forward by (rewrite Hs; simpl; lia).
  rewrite Hs. cbn [static_id static_bouncer call_bouncer].
  rewrite (bounceShim_unfold _ _ _ _ _ Hm Hat).
  unfold bind at 1, applyFun, applyFunImpl, bind at 1.
  simpl. rewrite Hargs. simpl. unfold foreign. rewrite Hcall.
  pose proof (confined_evaluate_arguments _
    (argument_expressions_confined engine (Some a) (lambda_args lam)
       (seq 0 (length (lambda_args lam)))) w2) as Hc.
  rewrite Hargs in Hc. rewrite Hc. reflexivity.
Qed.


(** X15: what a rejected registration does to the process.  If the shim
    answers the identify call with another status and leaves the pending
    id where the constructor put it, the constructor throws with that id
    still pending, and from then on every registration, with whatever
    shim, fails the constructor's [assert]. *)
Theorem rejected_registration_blocks_the_next
    sig engine spec (shim : RenShimPointer) fun_ w r w'
    sig2 engine2 spec2 (shim2 : RenShimPointer) fun2 :
  extensionTablesMutex w = false →
  capture_empty w →
  shim None
    (set_capture (to_int (Z.of_nat (length (table w sig))))
       (Some (bounceShim_of sig)) (set_mutex true w))
  = Returned r w' →
  r ≠ REN_SHIM_INITIALIZED →
  shimIdToCapture w' ≠ -1 →
  FunctionGenerator sig engine spec shim fun_ w
  = Threw (runtime_error "First shim call didn't return REN_SHIM_INITIALIZED")
      (set_mutex false w')
  ∧ FunctionGenerator sig2 engine2 spec2 shim2 fun2 (set_mutex false w')
    = Stuck AssertionFailed.
Proof.
  intros Hm [Hid Hb] Hcall Hr Hpending. split.
  - unfold FunctionGenerator, lock_guard, lock. rewrite Hm.
    unfold bind at 1, gets at 1. unfold bind at 1.
    cbn [shimIdToCapture set_mutex]. rewrite Hid. simpl.
    unfold bind at 1, gets, bind at 1. cbn [shimBouncerToCapture set_mutex].
    rewrite Hb. simpl.
    unfold bind at 1, modify at 1, bind at 1. cbn [table set_mutex].
    rewrite Hcall. by destruct (decide (r ≠ REN_SHIM_INITIALIZED)).
  - unfold FunctionGenerator, lock_guard, lock. simpl.
    unfold bind at 1, gets at 1. unfold bind at 1. simpl.
    destruct (bool_decide (shimIdToCapture w' = -1)) eqn:Hd; [|done].
    by apply bool_decide_eq_true in Hd.
Qed.

End Further.

(** * The scenarios of the specification, run on the harness *)

Section Scenarios.

Import Harness.

#[local] Existing Instance first_to_last_compiler.

(** The scenario of C1: [adder] registered under
    ["a [integer!] b [integer!]"], invoked on the stack values (2, 3):
    the return slot holds 5 and the status is [REN_SUCCESS]. *)
Lemma adder_2_3_returns_5 :
  ∃ w',
    table_at (with_adder first_to_last) (binary first_to_last) 0
    = Some {| engine := 0%nat; fn := Some (lambda_call (adder first_to_last)) |}
    ∧ bounceShim (binary first_to_last) 0 (Some 0%nat) (with_adder first_to_last)
      = Returned REN_SUCCESS w'
    ∧ REN_STACK_RETURN (stacks w' 0%nat) = CInteger 5.
Proof.
  eexists. split; [vm_compute; reflexivity|]. split.
  - eapply proj1.
    eapply (bounceShim_applies_entry (binary first_to_last) 0 0%nat (with_adder first_to_last));
      vm_compute; reflexivity.
  - vm_compute. reflexivity.
Defined.

(** The claim of C3 as it is written fails for a compiler that
    evaluates the arguments of a call last to first: the cell of
    position 1 is converted before the cell of position 0, and the
    application differs from the left-to-right one. *)
Lemma last_to_first_constructs_position_1_first :
  runtime
    (world_after last_to_first
       (applyFun (H := last_to_first_compiler)
          (Some (lambda_call (adder last_to_first))) 0%nat (Some 0%nat)
          [TInteger; TInteger] (fresh last_to_first))
       (fresh last_to_first))
  = [CInteger 3; CInteger 2]
  ∧ applyFun (H := last_to_first_compiler)
      (Some (lambda_call (adder last_to_first))) 0%nat (Some 0%nat)
      [TInteger; TInteger] (fresh last_to_first)
    ≠ applyFun_left_to_right (Some (lambda_call (adder last_to_first))) 0%nat
        (Some 0%nat) [TInteger; TInteger] (fresh last_to_first).
Proof.
  split; [vm_compute; reflexivity|].
  intros Heq.
  apply (f_equal (fun o => runtime (world_after last_to_first o (fresh last_to_first)))) in Heq.
  vm_compute in Heq. discriminate Heq.
Defined.

Lemma first_to_last_constructs_in_positional_order :
  argument_order 2 = [0; 1]%nat
  ∧ applyFun (Some (lambda_call (adder first_to_last))) 0%nat (Some 0%nat)
      [TInteger; TInteger] (fresh first_to_last)
    = applyFun_left_to_right (Some (lambda_call (adder first_to_last))) 0%nat
        (Some 0%nat) [TInteger; TInteger] (fresh first_to_last)
  ∧ runtime
      (world_after first_to_last
         (applyFun (Some (lambda_call (adder first_to_last))) 0%nat (Some 0%nat)
            [TInteger; TInteger] (fresh first_to_last))
         (fresh first_to_last))
    = [CInteger 2; CInteger 3].
Proof.
  split; [reflexivity|]. split; [|vm_compute; reflexivity].
  apply (proj1 (applyFun_constructs_by_position
                  (Some (lambda_call (adder first_to_last))) 0%nat 0%nat
                  [TInteger; TInteger] (fresh first_to_last))).
  reflexivity.
Defined.

(** The scenario of C4: the frame at address 1 holds two strings where
    [adder] takes integers; the conversion error of the first slot
    comes out of the dispatcher, the return slot is as it was and the
    runtime has seen that one conversion only. *)
Lemma adder_on_strings_throws :
  ∃ w1,
    bounceShim (binary first_to_last) 0 (Some 1%nat) (with_adder first_to_last)
    = Threw (thrown (TypeMismatch TInteger (CString "a"))) w1
    ∧ stacks w1 = stacks (with_adder first_to_last)
    ∧ runtime w1 = [CString "a"].
Proof.
  eexists.
  destruct (bounceShim_propagates_failure (H := first_to_last_compiler)
              (binary first_to_last) 0 (Some 1%nat)
              (with_adder first_to_last)
              (@Build_TableEntry first_to_last_compiler 0%nat
                 (Some (lambda_call (adder first_to_last))))
              (reflexivity _) (reflexivity _)) as (Hargs & _).
  edestruct Hargs as (Hout & _ & Hstacks); [vm_compute; reflexivity|].
  split; [exact Hout|]. split; [exact Hstacks|]. vm_compute. reflexivity.
Defined.

Lemma adder_is_issued_id_0 :
  FunctionGenerator (binary first_to_last) 0%nat spec (REN_STD_FUNCTION 0)
    (Some (lambda_call (adder first_to_last))) (fresh first_to_last)
  = Returned spec (with_adder first_to_last)
  ∧ static_id (statics (with_adder first_to_last) 0%nat) = 0
  ∧ table (with_adder first_to_last) (binary first_to_last)
    = table (fresh first_to_last) (binary first_to_last)
      ++ [@Build_TableEntry first_to_last_compiler 0%nat
            (Some (lambda_call (adder first_to_last)))].
Proof.
  assert (FunctionGenerator (binary first_to_last) 0%nat spec
            (REN_STD_FUNCTION 0) (Some (lambda_call (adder first_to_last)))
            (fresh first_to_last)
          = Returned spec (with_adder first_to_last)) as Hreg
    by (vm_compute; reflexivity).
  assert (fits_int (with_adder first_to_last) (binary first_to_last)) as Hfits
    by (vm_compute; reflexivity).
  destruct (registration_issues_table_size _ _ _ _ _ _ _ _ Hreg Hfits)
    as (_ & Htable & _ & _ & Hzero).
  split; [exact Hreg|]. split; [|exact Htable].
  apply Hzero. reflexivity.
Defined.

(** The scenario of C7: [adder], then [multiplier], of one signature,
    with calls in between and after. *)
Lemma adder_and_multiplier_keep_their_ids :
  static_id (statics (both_called first_to_last) 0%nat)
  ≠ static_id (statics (both_called first_to_last) 1%nat)
  ∧ table_at (both_called first_to_last) (binary first_to_last)
      (static_id (statics (both_called first_to_last) 0%nat))
    = Some (@Build_TableEntry first_to_last_compiler 0%nat
              (Some (lambda_call (adder first_to_last))))
  ∧ table_at (both_called first_to_last) (binary first_to_last)
      (static_id (statics (both_called first_to_last) 1%nat))
    = Some (@Build_TableEntry first_to_last_compiler 0%nat
              (Some (lambda_call (multiplier first_to_last)))).
Proof.
  assert (FunctionGenerator (binary first_to_last) 0%nat spec
            (REN_STD_FUNCTION 0) (Some (lambda_call (adder first_to_last)))
            (fresh first_to_last)
          = Returned spec (with_adder first_to_last)) as Hreg1
    by (vm_compute; reflexivity).
  assert (run [Invoke 0 (Some 0%nat)] (with_adder first_to_last)
          = Some (adder_called first_to_last)) as Hbetween
    by (vm_compute; reflexivity).
  assert (FunctionGenerator (binary first_to_last) 0%nat spec
            (REN_STD_FUNCTION 1) (Some (lambda_call (multiplier first_to_last)))
            (adder_called first_to_last)
          = Returned spec (with_both first_to_last)) as Hreg2
    by (vm_compute; reflexivity).
  assert (run [Invoke 1 (Some 0%nat); Invoke 0 (Some 0%nat)]
            (with_both first_to_last)
          = Some (both_called first_to_last)) as Hlater
    by (vm_compute; reflexivity).
  assert (fits_int (both_called first_to_last) (binary first_to_last)) as Hfits
    by (vm_compute; reflexivity).
  destruct (issued_ids_distinct_and_stable _ _ _ _ _ _ _ _ _ _ _ _ _ _ _ _ _ _
              Hreg1 Hbetween Hreg2 Hlater Hfits)
    as (Hne & _ & _ & Hat1 & Hat2 & _).
  split; [exact Hne|]. split; [exact Hat1|exact Hat2].
Defined.

Lemma adder_id_stays_in_bounds :
  (0 ≤ static_id (statics (adder_called first_to_last) 0%nat)
   < Z.of_nat (length (table (adder_called first_to_last) (binary first_to_last))))
  ∧ copy_entry (binary first_to_last)
      (static_id (statics (adder_called first_to_last) 0%nat))
      (adder_called first_to_last)
    = Returned (@Build_TableEntry first_to_last_compiler 0%nat
                  (Some (lambda_call (adder first_to_last))))
        (adder_called first_to_last)
  ∧ bounceShim (binary first_to_last) 1 (Some 0%nat) (adder_called first_to_last)
    = Stuck TableOutOfRange.
Proof.
  assert (FunctionGenerator (binary first_to_last) 0%nat spec
            (REN_STD_FUNCTION 0) (Some (lambda_call (adder first_to_last)))
            (fresh first_to_last)
          = Returned spec (with_adder first_to_last)) as Hreg
    by (vm_compute; reflexivity).
  assert (run [Invoke 0 (Some 0%nat)] (with_adder first_to_last)
          = Some (adder_called first_to_last)) as Hrun
    by (vm_compute; reflexivity).
  assert (fits_int (adder_called first_to_last) (binary first_to_last)) as Hfits
    by (vm_compute; reflexivity).
  destruct (issued_id_in_bounds _ _ _ _ _ _ _ _ _ _ Hreg Hrun Hfits)
    as (Hbounds & _ & Hcopy & _ & Htrap).
  split; [exact Hbounds|]. split; [exact Hcopy|].
  apply Htrap; reflexivity.
Defined.

Lemma adder_trampoline_identified_once :
  static_id (statics (fresh first_to_last) 0%nat) = -1
  ∧ statics (with_adder first_to_last) 0%nat
    = statics (both_called first_to_last) 0%nat
  ∧ ∀ stack,
      REN_STD_FUNCTION 0 stack (both_called first_to_last)
      = bounceShim (binary first_to_last)
          (static_id (statics (both_called first_to_last) 0%nat)) stack
          (both_called first_to_last).
Proof.
  assert (FunctionGenerator (binary first_to_last) 0%nat spec
            (REN_STD_FUNCTION 0) (Some (lambda_call (adder first_to_last)))
            (fresh first_to_last)
          = Returned spec (with_adder first_to_last)) as Hreg
    by (vm_compute; reflexivity).
  assert (run [Invoke 0 (Some 0%nat);
               Register (binary first_to_last) 0%nat spec 1
                 (Some (lambda_call (multiplier first_to_last)));
               Invoke 1 (Some 0%nat); Invoke 0 (Some 0%nat)]
            (with_adder first_to_last)
          = Some (both_called first_to_last)) as Hrun
    by (vm_compute; reflexivity).
  assert (fits_int (both_called first_to_last) (binary first_to_last)) as Hfits
    by (vm_compute; reflexivity).
  destruct (trampoline_identified_once _ _ _ _ _ _ _ _ _ _ Hreg Hrun Hfits)
    as (_ & Hunset & Hsame & _ & _ & _ & Hforward).
  split; [exact Hunset|]. split; [exact Hsame|exact Hforward].
Defined.

Lemma stray_call_leaves_trampoline_unidentified :
  REN_STD_FUNCTION 0 (Some 0%nat) (fresh first_to_last)
  = Returned REN_SHIM_INITIALIZED (capture_identity 0 (fresh first_to_last))
  ∧ statics (capture_identity 0 (fresh first_to_last)) 0%nat = unidentified
  ∧ stacks (capture_identity 0 (fresh first_to_last))
    = stacks (fresh first_to_last).
Proof.
  destruct (identify_outside_registration 0 (Some 0%nat) (fresh first_to_last)
              (reflexivity _) (conj (reflexivity _) (reflexivity _)))
    as (Hcall & Hunset & _ & Hstacks & _).
  split; [exact Hcall|]. split; [exact Hunset|exact Hstacks].
Defined.

Lemma stubborn_shim_leaves_tables :
  leaves_tables (stubborn_shim first_to_last).
Proof. intros stack w r w' [= _ <-]. reflexivity. Defined.

(** The scenario of C5: a shim that answers the identify call with
    [REN_SUCCESS]. *)
Lemma stubborn_shim_is_rejected :
  ∃ w',
    FunctionGenerator (binary first_to_last) 0%nat spec
      (stubborn_shim first_to_last)
      (Some (lambda_call (adder first_to_last))) (fresh first_to_last)
    = Threw
        (runtime_error "First shim call didn't return REN_SHIM_INITIALIZED") w'
    ∧ table w' = table (fresh first_to_last).
Proof.
  eexists.
  eapply (registration_rejects_shim (binary first_to_last) 0%nat spec
            (stubborn_shim first_to_last)
            (Some (lambda_call (adder first_to_last))) (fresh first_to_last)).
  - reflexivity.
  - split; reflexivity.
  - exact stubborn_shim_leaves_tables.
  - vm_compute. reflexivity.
  - vm_compute. discriminate.
Defined.

(** C6 fails on the code: the constructor throws before it clears the
    capture slots.  After the registration that [stubborn_shim] makes
    fail, the pending id is still the size of the table and the pending
    bouncer still the dispatcher, although nothing was appended; the
    next registration trips over the constructor's own [assert]. *)
Theorem failed_registration_leaves_capture_slots :
  ∃ w',
    FunctionGenerator (binary first_to_last) 0%nat spec
      (stubborn_shim first_to_last)
      (Some (lambda_call (adder first_to_last))) (fresh first_to_last)
    = Threw
        (runtime_error "First shim call didn't return REN_SHIM_INITIALIZED") w'
    ∧ capture_empty (fresh first_to_last)
    ∧ shimIdToCapture w' = 0
    ∧ shimBouncerToCapture w' = Some (bounceShim_of (binary first_to_last))
    ∧ ¬ capture_empty w'
    ∧ table w' (binary first_to_last) = []
    ∧ FunctionGenerator (binary first_to_last) 0%nat spec (REN_STD_FUNCTION 0)
        (Some (lambda_call (adder first_to_last))) w'
      = Stuck AssertionFailed.
Proof.
  eexists. split; [vm_compute; reflexivity|].
  split; [split; reflexivity|].
  split; [reflexivity|]. split; [reflexivity|].
  split; [intros [Hid _]; vm_compute in Hid; discriminate Hid|].
  split; [reflexivity|]. vm_compute. reflexivity.
Qed.

End Scenarios.

(** * The further properties, run on the harness *)

Section FurtherScenarios.

Import Harness.

#[local] Existing Instance first_to_last_compiler.

Lemma adder_registration_succeeds :
  FunctionGenerator (binary first_to_last) 0%nat spec (REN_STD_FUNCTION 0)
    (Some (lambda_call (adder first_to_last))) (fresh first_to_last)
  = Returned spec
      (registered (binary first_to_last) 0%nat 0
         (Some (lambda_call (adder first_to_last))) [] (fresh first_to_last)).
Proof.
  apply (registration_succeeds (H := first_to_last_compiler)
           (binary first_to_last) 0%nat spec 0%nat
           (Some (lambda_call (adder first_to_last))) (fresh first_to_last)
           spec []).
  - reflexivity.
  - split; reflexivity.
  - reflexivity.
  - reflexivity.
Defined.

Lemma refused_function_stays_registered :
  ∃ w' : World (H := refusing_runtime),
    FunctionGenerator (H := refusing_runtime)
      (@Build_Signature refusing_runtime TInteger [TInteger]) 0%nat spec
      (REN_STD_FUNCTION 0) None fresh_refusing
    = Threw (thrown (H := refusing_runtime) (inr spec)) w'
    ∧ length (table w' (@Build_Signature refusing_runtime TInteger [TInteger]))
      = 1%nat
    ∧ static_id (statics w' 0%nat) = 0.
Proof.
  destruct (finishInit_failure_keeps_entry (H := refusing_runtime)
              (@Build_Signature refusing_runtime TInteger [TInteger])
              0%nat spec 0%nat None fresh_refusing (inr spec) [])
    as (w' & Hout & Htable & Hstatics & _).
  - reflexivity.
  - split; reflexivity.
  - reflexivity.
  - reflexivity.
  - exists w'. split; [exact Hout|]. split.
    + rewrite Htable. reflexivity.
    + rewrite Hstatics. reflexivity.
Defined.

Lemma adder_trampoline_cannot_register_again :
  dispatches_to (with_adder first_to_last) 0 (binary first_to_last)
  ∧ FunctionGenerator (binary first_to_last) 0%nat spec (REN_STD_FUNCTION 0)
      (Some (lambda_call (multiplier first_to_last))) (with_adder first_to_last)
    = Stuck Deadlock.
Proof.
  assert (dispatches_to (with_adder first_to_last) 0 (binary first_to_last))
    as Hd.
  { split; [vm_compute; discriminate|vm_compute; reflexivity]. }
  split; [exact Hd|].
  apply (registration_with_identified_trampoline (H := first_to_last_compiler)
           (binary first_to_last) 0%nat spec 0%nat
           (Some (lambda_call (multiplier first_to_last)))
           (with_adder first_to_last) (binary first_to_last)).
  - reflexivity.
  - split; reflexivity.
  - exact Hd.
Defined.

Lemma registration_inside_a_registration_deadlocks :
  FunctionGenerator (binary first_to_last) 0%nat spec (REN_STD_FUNCTION 0)
    (Some (lambda_call (adder first_to_last)))
    (set_mutex true (fresh first_to_last))
  = Stuck Deadlock
  ∧ FunctionGenerator (binary first_to_last) 0%nat spec (REN_STD_FUNCTION 0)
      (Some (lambda_call (adder first_to_last)))
      (set_capture 0 (Some (bounceShim_of (binary first_to_last)))
         (fresh first_to_last))
    = Stuck AssertionFailed.
Proof.
  split.
  - apply (proj1 (registration_guards (H := first_to_last_compiler)
                    (binary first_to_last) 0%nat spec (REN_STD_FUNCTION 0)
                    (Some (lambda_call (adder first_to_last)))
                    (set_mutex true (fresh first_to_last)))).
    reflexivity.
  - apply (proj2 (registration_guards (H := first_to_last_compiler)
                    (binary first_to_last) 0%nat spec (REN_STD_FUNCTION 0)
                    (Some (lambda_call (adder first_to_last)))
                    (set_capture 0 (Some (bounceShim_of (binary first_to_last)))
                       (fresh first_to_last)))).
    + reflexivity.
    + intros [Hid _]. vm_compute in Hid. discriminate Hid.
Defined.

Lemma adder_trampoline_on_null_stack :
  static_id (statics (with_adder first_to_last) 0%nat) ≠ -1
  ∧ ∀ r w', REN_STD_FUNCTION 0 None (with_adder first_to_last) ≠ Returned r w'.
Proof.
  assert (static_id (statics (with_adder first_to_last) 0%nat) ≠ -1) as Hid
    by (vm_compute; discriminate).
  split; [exact Hid|]. intros r w'.
  exact (forwarding_null_stack_never_returns 0 (with_adder first_to_last) r w' Hid).
Defined.

Lemma empty_function_scenario :
  ∃ w1,
    table_at with_empty (binary first_to_last) 2
    = Some (@Build_TableEntry first_to_last_compiler 0%nat None)
    ∧ bounceShim (binary first_to_last) 2 (Some 0%nat) with_empty
      = Threw bad_function_call w1
    ∧ stacks w1 = stacks with_empty.
Proof.
  eexists. split; [vm_compute; reflexivity|].
  eapply (empty_function_throws (H := first_to_last_compiler)
            (binary first_to_last) 2 (Some 0%nat) with_empty
            (@Build_TableEntry first_to_last_compiler 0%nat None)).
  - reflexivity.
  - vm_compute. reflexivity.
  - reflexivity.
  - vm_compute. reflexivity.
Defined.



Lemma first_to_last_evaluates_all : evaluates_all 2.
Proof.
  intros i Hi. change (i ∈ [0; 1]%nat).
  destruct i as [|[|i]]; [| |lia].
  - apply elem_of_cons. by left.
  - apply elem_of_cons. right. apply elem_of_cons. by left.
Defined.

Lemma adder_call_does_not_trap :
  evaluates_all 2
  ∧ bounceShim (binary first_to_last) 0 (Some 1%nat)
      (with_adder first_to_last) ≠ Stuck ArgumentNotEvaluated
  ∧ bounceShim (binary first_to_last) 0 (Some 1%nat)
      (with_adder first_to_last) ≠ Stuck NullStack.
Proof.
  split; [exact first_to_last_evaluates_all|].
  split.
  - apply (bounceShim_does_not_trap (H := first_to_last_compiler)
             (binary first_to_last) 0 1%nat (with_adder first_to_last)
             (@Build_TableEntry first_to_last_compiler 0%nat
                (Some (lambda_call (adder first_to_last))))
             ArgumentNotEvaluated).
    + reflexivity.
    + vm_compute. reflexivity.
    + exact first_to_last_evaluates_all.
  - apply (bounceShim_does_not_trap (H := first_to_last_compiler)
             (binary first_to_last) 0 1%nat (with_adder first_to_last)
             (@Build_TableEntry first_to_last_compiler 0%nat
                (Some (lambda_call (adder first_to_last))))
             NullStack).
    + reflexivity.
    + vm_compute. reflexivity.
    + exact first_to_last_evaluates_all.
Defined.





Lemma adder_is_called_through_its_trampoline :
  ∃ w',
    REN_STD_FUNCTION 0 (Some 0%nat) (with_both first_to_last)
    = Returned REN_SUCCESS w'
    ∧ REN_STACK_RETURN (stacks w' 0%nat) = CInteger 5.
Proof.
  eexists. split.
  - eapply (registered_lambda_is_called (H := first_to_last_compiler)
              0%nat spec 0%nat (adder first_to_last) (fresh first_to_last)
              spec (with_adder first_to_last)
              [Invoke 0 (Some 0%nat);
               Register (binary first_to_last) 0%nat spec 1
                 (Some (lambda_call (multiplier first_to_last)))]
              (with_both first_to_last) 0%nat);
      vm_compute; reflexivity.
  - vm_compute. reflexivity.
Defined.


Lemma stubborn_shim_blocks_the_adder :
  ∃ w',
    FunctionGenerator (binary first_to_last) 0%nat spec
      (stubborn_shim first_to_last)
      (Some (lambda_call (multiplier first_to_last))) (fresh first_to_last)
    = Threw
        (runtime_error "First shim call didn't return REN_SHIM_INITIALIZED") w'
    ∧ FunctionGenerator (binary first_to_last) 0%nat spec (REN_STD_FUNCTION 0)
        (Some (lambda_call (adder first_to_last))) w'
      = Stuck AssertionFailed.
Proof.
  eexists.
  eapply (rejected_registration_blocks_the_next (H := first_to_last_compiler)
            (binary first_to_last) 0%nat spec (stubborn_shim first_to_last)
            (Some (lambda_call (multiplier first_to_last)))
            (fresh first_to_last)).
  - reflexivity.
  - split; reflexivity.
  - vm_compute. reflexivity.
  - vm_compute. discriminate.
  - vm_compute. discriminate.
Defined.

End FurtherScenarios.
